(** * A stock-exchange web server: the ledger, the dispatcher and the
    connection handler of [homework6.cpp], embedded in Rocq.

    The ledger [sm::stockMap] is a [std::unordered_map<std::string, Stock>];
    it is modelled as a finite map from strings to records.  Every function
    of the source that touches the ledger takes the ledger as an argument
    and returns the new ledger together with the string it stores in its
    [ret] reference parameter. *)

From stdpp Require Import gmap strings list fin_maps.
From Stdlib Require Import ZArith Ascii String.

Local Open Scope Z_scope.

(** ** The C++ [int] and [unsigned int] types (32 bits)

    Values are integers of [Z] with the reduction to 32 bits written out.
    For [unsigned int] the reduction is the one the language defines.  For
    [int] the language leaves an arithmetic result out of range undefined;
    the model takes the two's-complement result, which is also what the
    conversion from [unsigned int] gives. *)

Module Int32.

Definition modulus : Z := 2 ^ 32.
Definition min_signed : Z := - 2 ^ 31.
Definition max_signed : Z := 2 ^ 31 - 1.
Definition max_unsigned : Z := 2 ^ 32 - 1.

(** The value an [int] holds after an arithmetic result [z] is reduced to
    32 bits (two's complement). *)
Definition wrap (z : Z) : Z := (z - min_signed) mod modulus + min_signed.

(** The value an [unsigned int] holds after a result [z] is reduced. *)
Definition wrap_unsigned (z : Z) : Z := z mod modulus.

Definition in_range (z : Z) : Prop := min_signed <= z <= max_signed.

(** Conversion of an [unsigned int] argument to an [int] parameter, as at
    the call [process(trans, stock, a)]. *)
Definition of_unsigned (u : Z) : Z := wrap u.

End Int32.

(** ** [std::to_string] on integers: the decimal numeral *)

Definition digit_char (d : Z) : ascii :=
  ascii_of_nat (48 + Z.to_nat d).

Fixpoint decimal_go (fuel : nat) (n : Z) (acc : string) : string :=
  match fuel with
  | O => acc
  | S fuel' =>
      let acc' := String (digit_char (n mod 10)) acc in
      if decide (n / 10 = 0) then acc' else decimal_go fuel' (n / 10) acc'
  end.

(** The numeral of a natural number [n]; [n] has at most
    [Z.to_nat (Z.log2 n) + 1] binary digits, hence no more decimal ones. *)
Definition decimal (n : Z) : string :=
  decimal_go (S (Z.to_nat (Z.log2 n))) n "".

(** [std::to_string(int)]. *)
Definition to_string (n : Z) : string :=
  if decide (n < 0) then "-" +:+ decimal (- n) else decimal n.

(** ** The ledger *)

(** Modelled from the spec: [Stock.h] is not part of the sources.  The spec
    gives a stock record a symbol (a string) and a balance (a signed
    integer); [homework6.cpp] reads and writes the members [name] and
    [balance] (and locks the member [mutex], which holds no data in a
    single-threaded run and is modelled with the threads below). *)
Record Stock : Type := mkStock { name : string; balance : Z }.

Global Instance Stock_eq_dec : EqDecision Stock.
Proof. solve_decision. Defined.

Definition set_name (v : string) (r : Stock) : Stock :=
  {| name := v; balance := balance r |}.
Definition set_balance (v : Z) (r : Stock) : Stock :=
  {| name := name r; balance := v |}.

Section Exchange.

(** What other files of the program decide is a variable of the section. *)

(** The balance of a default-constructed [Stock] (decided by [Stock.h]). *)
Variable balance_init : Z.

(** [url_decode], declared in the source and defined in [main.cpp]. *)
Variable url_decode : string → string.

Definition Stock_default : Stock := {| name := ""; balance := balance_init |}.

(** [sm::stockMap[stock]]: a reference to the record under [stock], which is
    default-constructed and inserted first when the key is absent. *)
Definition subscript (stock : string) (m : gmap string Stock)
  : gmap string Stock * Stock :=
  match m !! stock with
  | Some r => (m, r)
  | None => (<[stock := Stock_default]> m, Stock_default)
  end.

(** [sm::stockMap[stock].member = ...]: subscript, then a member update. *)
Definition assign (stock : string) (f : Stock → Stock) (m : gmap string Stock)
  : gmap string Stock :=
  let '(m1, r) := subscript stock m in <[stock := f r]> m1.

(** [sm::stockMap.find(stock) != sm::stockMap.end()]. *)
Definition found (stock : string) (m : gmap string Stock) : bool :=
  bool_decide (is_Some (m !! stock)).

Definition createS (stock : string) (amount : Z) (m : gmap string Stock)
  : gmap string Stock * string :=
  if found stock m then
    (m, "Stock " +:+ stock +:+ " already exists")
  else
    let m1 := (subscript stock m).1 in             (* Guard lock(... .mutex) *)
    let m2 := assign stock (set_name stock) m1 in
    let m3 := assign stock (set_balance amount) m2 in
    (m3, "Stock " +:+ stock +:+ " created with balance = " +:+ to_string amount).

Definition buyS (stock : string) (amount : Z) (m : gmap string Stock)
  : gmap string Stock * string :=
  if negb (found stock m) then
    (m, "Stock not found")
  else
    let m1 := (subscript stock m).1 in             (* Guard lock(... .mutex) *)
    let m2 := assign stock (λ r, set_balance (Int32.wrap (balance r - amount)) r) m1 in
    (m2, "Stock " +:+ stock +:+ "'s balance updated").

Definition sellS (stock : string) (amount : Z) (m : gmap string Stock)
  : gmap string Stock * string :=
  if negb (found stock m) then
    (m, "Stock not found")
  else
    let m1 := (subscript stock m).1 in             (* Guard lock(... .mutex) *)
    let m2 := assign stock (λ r, set_balance (Int32.wrap (balance r + amount)) r) m1 in
    (m2, "Stock " +:+ stock +:+ "'s balance updated").

Definition statusS (stock : string) (m : gmap string Stock)
  : gmap string Stock * string :=
  if negb (found stock m) then
    (m, "Stock not found")
  else
    let '(m1, r) := subscript stock m in
    (m1, "Balance for stock " +:+ stock +:+ " = " +:+ to_string (balance r)).

Definition resetS (m : gmap string Stock) : gmap string Stock * string :=
  (∅, "Stocks reset").

(** ** The dispatcher *)

Definition process (trans stock : string) (a : Z) (m : gmap string Stock)
  : gmap string Stock * string :=
  if decide (trans = "create") then createS stock a m
  else if decide (trans = "buy") then buyS stock a m
  else if decide (trans = "sell") then sellS stock a m
  else if decide (trans = "status") then statusS stock m
  else if decide (trans = "reset") then resetS m
  else (m, "Invalid request").

(** The five ledger operations as data, and the ledgers a sequence of them
    builds from the empty one. *)
Inductive op : Type :=
  | Create (stock : string) (amount : Z)
  | Buy (stock : string) (amount : Z)
  | Sell (stock : string) (amount : Z)
  | Status (stock : string)
  | Reset.

Definition run_op (o : op) (m : gmap string Stock) : gmap string Stock * string :=
  match o with
  | Create stock amount => createS stock amount m
  | Buy stock amount => buyS stock amount m
  | Sell stock amount => sellS stock amount m
  | Status stock => statusS stock m
  | Reset => resetS m
  end.

Inductive reachable : gmap string Stock → Prop :=
  | reachable_empty : reachable ∅
  | reachable_step o m : reachable m → reachable (run_op o m).1.

(** ** Input streams

    A [std::istream] over a fixed sequence of bytes: what is still to be
    read, and the [eofbit] and [failbit] of its state. *)

Record istream : Type :=
  mkIstream { buffer : string; eofbit : bool; failbit : bool }.

Definition good (s : istream) : bool := negb (eofbit s) && negb (failbit s).

(** [std::istringstream(str)]. *)
Definition istringstream (str : string) : istream := mkIstream str false false.

Definition LF : ascii := "010"%char.
Definition CR : ascii := "013"%char.

(** [std::isspace] in the C locale: space, and the controls 9 to 13. *)
Definition isspace (c : ascii) : bool :=
  let n := nat_of_ascii c in
  (n =? 32)%nat || ((9 <=? n)%nat && (n <=? 13)%nat).

Definition isdigit (c : ascii) : bool :=
  let n := nat_of_ascii c in (48 <=? n)%nat && (n <=? 57)%nat.

Fixpoint skipws (s : string) : string :=
  match s with
  | String c s' => if isspace c then skipws s' else s
  | EmptyString => EmptyString
  end.

(** The characters before the next white space, and what follows them. *)
Fixpoint read_word (s : string) : string * string :=
  match s with
  | String c s' =>
      if isspace c then (EmptyString, s)
      else let '(w, rest) := read_word s' in (String c w, rest)
  | EmptyString => (EmptyString, EmptyString)
  end.

(** The longest prefix of decimal digits, and what follows it. *)
Fixpoint read_digits (s : string) : string * string :=
  match s with
  | String c s' =>
      if isdigit c then let '(d, rest) := read_digits s' in (String c d, rest)
      else (EmptyString, s)
  | EmptyString => (EmptyString, EmptyString)
  end.

Fixpoint digits_value (acc : Z) (ds : string) : Z :=
  match ds with
  | String c ds' => digits_value (10 * acc + (Z.of_nat (nat_of_ascii c) - 48)) ds'
  | EmptyString => acc
  end.

(** An optional sign: whether it is a minus, and what follows it. *)
Definition read_sign (s : string) : bool * string :=
  match s with
  | String c b =>
      if decide (c = "-"%char) then (true, b)
      else if decide (c = "+"%char) then (false, b)
      else (false, s)
  | EmptyString => (false, EmptyString)
  end.

(** The sentry of a formatted input function ([skipws] is set): a stream
    that is not good fails; otherwise white space is skipped, and reaching
    the end while skipping sets [eofbit] and [failbit]. *)
Definition sentry (s : istream) : istream * bool :=
  if good s then
    match skipws (buffer s) with
    | EmptyString => (mkIstream EmptyString true true, false)
    | rest => (mkIstream rest false false, true)
    end
  else (mkIstream (buffer s) (eofbit s) true, false).

(** [is >> str] for a [std::string]: [str] keeps its old value when the
    sentry fails. *)
Definition extract_string (s : istream) (old : string) : istream * string :=
  let '(s1, ok) := sentry s in
  if ok then
    let '(w, rest) := read_word (buffer s1) in
    (mkIstream rest (bool_decide (rest = EmptyString)) false, w)
  else (s1, old).

(** [is >> a] for an [unsigned int] (decimal, C locale, since C++11): an
    optional sign, then digits.  No digit: 0 is stored and the stream fails.
    A value above [UINT_MAX]: [UINT_MAX] is stored and the stream fails.
    After a minus sign the value is negated modulo [2^32].  [a] keeps its
    old value when the sentry fails. *)
Definition extract_unsigned (s : istream) (old : Z) : istream * Z :=
  let '(s1, ok) := sentry s in
  if ok then
    let '(negative, body) := read_sign (buffer s1) in
    let '(ds, rest) := read_digits body in
    let eof := bool_decide (rest = EmptyString) in
    if decide (ds = EmptyString) then (mkIstream rest eof true, 0)
    else
      let v := digits_value 0 ds in
      if decide (Int32.max_unsigned < v) then (mkIstream rest eof true, Int32.max_unsigned)
      else (mkIstream rest eof false,
            if negative then Int32.wrap_unsigned (- v) else v)
  else (s1, old).

(** The characters before the first line feed, what follows it, and
    whether a line feed was found. *)
Fixpoint split_line (s : string) : string * string * bool :=
  match s with
  | String c s' =>
      if decide (c = LF) then (EmptyString, s', true)
      else let '(l, rest, nl) := split_line s' in (String c l, rest, nl)
  | EmptyString => (EmptyString, EmptyString, false)
  end.

(** [std::getline(is, str)]: [str] keeps its old value when the stream is
    not good; otherwise it is erased and filled up to the line feed, which
    is dropped.  Reaching the end sets [eofbit]; extracting nothing sets
    [failbit]. *)
Definition getline (s : istream) (old : string) : istream * string :=
  if good s then
    match buffer s with
    | EmptyString => (mkIstream EmptyString true true, EmptyString)
    | b => let '(l, rest, nl) := split_line b in (mkIstream rest (negb nl) false, l)
    end
  else (mkIstream (buffer s) (eofbit s) true, old).

(** [std::replace(url.begin(), url.end(), from, to)]. *)
Fixpoint replace (from to : ascii) (s : string) : string :=
  match s with
  | String c s' => String (if decide (c = from) then to else c) (replace from to s')
  | EmptyString => EmptyString
  end.

(** ** The response *)

Definition CRLF : string := String CR (String LF EmptyString).

Definition HTTPRespHeader : string :=
  "HTTP/1.1 200 OK" +:+ CRLF +:+
  "Server: SimpleServer" +:+ CRLF +:+
  "Content-Length: %1%" +:+ CRLF +:+
  "Connection: Close" +:+ CRLF +:+
  "Content-Type: text/html" +:+ CRLF +:+ CRLF.

(** [boost::str(boost::format(fmt) % arg)] for the directives the header
    uses: [%1%] stands for the argument and [%%] for a percent sign. *)
Fixpoint boost_format (fmt : string) (arg : string) : string :=
  match fmt with
  | String "%" (String "1" (String "%" rest)) => arg +:+ boost_format rest arg
  | String "%" (String "%" rest) => String "%" (boost_format rest arg)
  | String c rest => String c (boost_format rest arg)
  | EmptyString => EmptyString
  end.

(** ** The connection handler *)

(** The loop that drops the header lines: it stops after the first line
    that is empty or a lone carriage return, or when [getline] fails.  Every
    round that goes on has taken a character off the stream, so
    [S (length (buffer is))] rounds are enough. *)
Fixpoint skip_headers (fuel : nat) (s : istream) (hdr : string) : istream :=
  match fuel with
  | O => s
  | S fuel' =>
      let '(s1, hdr1) := getline s hdr in
      if negb (failbit s1)
         && negb (bool_decide (hdr1 = EmptyString))
         && negb (bool_decide (hdr1 = String CR EmptyString))
      then skip_headers fuel' s1 hdr1
      else s1
  end.

(** Lines 167 to 174: the transaction, the stock and the amount read off
    the request line.  [a0] is what the uninitialised [unsigned int a]
    happens to hold. *)
Definition read_request (a0 : Z) (line : string) : string * string * Z :=
  let a := a0 in
  let url := EmptyString in
  let x := EmptyString in
  let stock := EmptyString in
  let trans := EmptyString in
  let s := istringstream line in
  let '(s, url) := extract_string s url in
  let '(s, url) := extract_string s url in
  let url := url_decode url in
  let url := replace "&" " " url in
  let url := replace "=" " " url in
  let s := istringstream url in
  let '(s, x) := extract_string s x in
  let '(s, trans) := extract_string s trans in
  let '(s, x) := extract_string s x in
  let '(s, stock) := extract_string s stock in
  let '(s, x) := extract_string s x in
  let '(s, a) := extract_unsigned s a in
  (trans, stock, a).

(** [clientThread(is, os)], with [is0] for the stream [is] on entry: the
    stream left to read, the bytes written to
    [os], and the ledger. *)
Definition clientThread (a0 : Z) (is0 : istream) (m : gmap string Stock)
  : istream * string * gmap string Stock :=
  let '(is1, line) := getline is0 EmptyString in
  let '(trans, stock, a) := read_request a0 line in
  let is2 := skip_headers (S (String.length (buffer is1))) is1 EmptyString in
  let '(m', data) := process trans stock (Int32.of_unsigned a) m in
  let httpForm := boost_format HTTPRespHeader (decimal (Z.of_nat (String.length data))) in
  (is2, httpForm +:+ data, m').

(** What [clientThread] writes for the result string [data]. *)
Definition response (data : string) : string :=
  boost_format HTTPRespHeader (decimal (Z.of_nat (String.length data))) +:+ data.

(** The white-space delimited tokens of a string, in order. *)
Fixpoint tokens_from (cur : string) (s : string) : list string :=
  match s with
  | String c s' =>
      if isspace c
      then (if decide (cur = EmptyString) then [] else [cur]) ++ tokens_from EmptyString s'
      else tokens_from (cur +:+ String c EmptyString) s'
  | EmptyString => if decide (cur = EmptyString) then [] else [cur]
  end.

Definition tokens (s : string) : list string := tokens_from EmptyString s.

(** A token that is a decimal numeral: digits only, at least one. *)
Definition numeral (t : string) : Prop :=
  t ≠ EmptyString ∧ read_digits t = (t, EmptyString).

(** ** Threads

    [runServer] starts one detached thread per connection, and every thread
    runs one ledger operation.  A thread is modelled by the operation it
    runs, the place it has reached in it and its [ret]; the threads share the
    ledger and the mutexes of its records.  One step of a thread is one
    access to the shared state, in the order the source makes them: [find],
    [sm::stockMap[stock]], the lock of a [Guard], one member assignment, the
    unlock at the end of the block, and [clear].  Each access is taken as
    atomic, which is the most the source can be granted. *)

Inductive point : Type :=
  | Start        (* before [find] (before [clear] in [resetS]) *)
  | AtSubscript  (* [find] done, before [sm::stockMap[stock]] of the Guard *)
  | AtLock       (* before the mutex is locked *)
  | AtName       (* mutex held, before [.name = stock] *)
  | AtBalance    (* mutex held, before the write to [.balance] *)
  | AtUnlock     (* before the Guard goes out of scope *)
  | AtRead       (* [statusS]: [find] done, before [.balance] is read *)
  | Finished.

Global Instance point_eq_dec : EqDecision point.
Proof. solve_decision. Defined.

Global Instance op_eq_dec : EqDecision op.
Proof. solve_decision. Defined.

Record thread : Type := mkThread { task : op; place : point; ret : string }.

(** The pool of threads, the ledger, and for every locked mutex the key of
    its record with the thread that holds it. *)
Record config : Type :=
  mkConfig { pool : list thread; ledger : gmap string Stock; held : gmap string nat }.

Definition goto (th : thread) (p : point) : thread :=
  {| task := task th; place := p; ret := ret th |}.

Definition finish (th : thread) (r : string) : thread :=
  {| task := task th; place := Finished; ret := r |}.

(** The unlock of a Guard: the mutex is released when the record it
    belongs to still stands locked by this thread. *)
Definition release (tid : nat) (stock : string) (h : gmap string nat) : gmap string nat :=
  if decide (h !! stock = Some tid) then delete stock h else h.

(** The lock of a Guard: it waits while another thread holds the mutex. *)
Definition acquire (tid : nat) (stock : string) (th : thread) (next : point)
    (m : gmap string Stock) (h : gmap string nat)
  : option (thread * gmap string Stock * gmap string nat) :=
  match h !! stock with
  | None => Some (goto th next, m, <[stock := tid]> h)
  | Some _ => None
  end.

Definition thread_step (tid : nat) (th : thread)
    (m : gmap string Stock) (h : gmap string nat)
  : option (thread * gmap string Stock * gmap string nat) :=
  match task th, place th with
  (* createS *)
  | Create stock amount, Start =>
      if found stock m
      then Some (finish th ("Stock " +:+ stock +:+ " already exists"), m, h)
      else Some (goto th AtSubscript, m, h)
  | Create stock amount, AtSubscript => Some (goto th AtLock, (subscript stock m).1, h)
  | Create stock amount, AtLock => acquire tid stock th AtName m h
  | Create stock amount, AtName =>
      Some (goto th AtBalance, assign stock (set_name stock) m, h)
  | Create stock amount, AtBalance =>
      Some (goto th AtUnlock, assign stock (set_balance amount) m, h)
  | Create stock amount, AtUnlock =>
      Some (finish th ("Stock " +:+ stock +:+ " created with balance = "
                       +:+ to_string amount), m, release tid stock h)
  (* buyS *)
  | Buy stock amount, Start =>
      if negb (found stock m)
      then Some (finish th "Stock not found", m, h)
      else Some (goto th AtSubscript, m, h)
  | Buy stock amount, AtSubscript => Some (goto th AtLock, (subscript stock m).1, h)
  | Buy stock amount, AtLock => acquire tid stock th AtBalance m h
  | Buy stock amount, AtBalance =>
      Some (goto th AtUnlock,
            assign stock (λ r, set_balance (Int32.wrap (balance r - amount)) r) m, h)
  | Buy stock amount, AtUnlock =>
      Some (finish th ("Stock " +:+ stock +:+ "'s balance updated"), m, release tid stock h)
  (* sellS *)
  | Sell stock amount, Start =>
      if negb (found stock m)
      then Some (finish th "Stock not found", m, h)
      else Some (goto th AtSubscript, m, h)
  | Sell stock amount, AtSubscript => Some (goto th AtLock, (subscript stock m).1, h)
  | Sell stock amount, AtLock => acquire tid stock th AtBalance m h
  | Sell stock amount, AtBalance =>
      Some (goto th AtUnlock,
            assign stock (λ r, set_balance (Int32.wrap (balance r + amount)) r) m, h)
  | Sell stock amount, AtUnlock =>
      Some (finish th ("Stock " +:+ stock +:+ "'s balance updated"), m, release tid stock h)
  (* statusS: no Guard *)
  | Status stock, Start =>
      if negb (found stock m)
      then Some (finish th "Stock not found", m, h)
      else Some (goto th AtRead, m, h)
  | Status stock, AtRead =>
      let '(m1, r) := subscript stock m in
      Some (finish th ("Balance for stock " +:+ stock +:+ " = "
                       +:+ to_string (balance r)), m1, h)
  (* resetS: no Guard; the records go, and their mutexes with them *)
  | Reset, Start => Some (finish th "Stocks reset", ∅, ∅)
  | _, _ => None
  end.

(** Thread [tid] takes its next step, if it has one and is not waiting. *)
Definition step (tid : nat) (c : config) : option config :=
  match pool c !! tid with
  | Some th =>
      match thread_step tid th (ledger c) (held c) with
      | Some (th', m', h') => Some (mkConfig (<[tid := th']> (pool c)) m' h')
      | None => None
      end
  | None => None
  end.

(** A schedule names the thread that steps next, again and again. *)
Fixpoint run (schedule : list nat) (c : config) : option config :=
  match schedule with
  | [] => Some c
  | tid :: rest =>
      match step tid c with
      | Some c' => run rest c'
      | None => None
      end
  end.

(** One thread per operation, none started, over the ledger [m]. *)
Definition spawn (tasks : list op) (m : gmap string Stock) : config :=
  mkConfig (map (λ o, mkThread o Start EmptyString) tasks) m ∅.

(** The record whose Guard a thread is inside of. *)
Definition guarding (th : thread) : option string :=
  match task th, place th with
  | (Create stock _ | Buy stock _ | Sell stock _), (AtName | AtBalance | AtUnlock) =>
      Some stock
  | _, _ => None
  end.


(** ** Predicates the properties are stated with *)

(** Every record is filed under its own name. *)
Definition names_match_keys (m : gmap string Stock) : Prop :=
  ∀ s r, m !! s = Some r → name r = s.

(** What [read_word] leaves starts with white space, if it starts at all. *)
Definition at_word_end (rest : string) : Prop :=
  match rest with
  | String c _ => isspace c = true
  | EmptyString => True
  end.

(** A stream from which the next extraction behaves as on its buffer:
    either it is good, or nothing is left in it. *)
Definition stream_ok (st : istream) : Prop :=
  good st = true ∨ buffer st = EmptyString.

(** The configurations a pool reaches, whatever the schedule. *)
Inductive reaches (c : config) : config → Prop :=
  | reaches_here : reaches c c
  | reaches_step tid c' c'' : reaches c c' → step tid c' = Some c'' → reaches c c''.

(** [n] steps of one thread, with no step of another in between. *)
Fixpoint thread_run (n : nat) (tid : nat) (th : thread)
    (m : gmap string Stock) (h : gmap string nat)
  : option (thread * gmap string Stock * gmap string nat) :=
  match n with
  | O => Some (th, m, h)
  | S n' =>
      match thread_step tid th m h with
      | Some (th', m', h') => thread_run n' tid th' m' h'
      | None => None
      end
  end.

(** Every thread inside a Guard holds the mutex of the record. *)
Definition guards_held (c : config) : Prop :=
  ∀ tid th stock,
    pool c !! tid = Some th → guarding th = Some stock → held c !! stock = Some tid.

Definition reset_free (c : config) : Prop :=
  ∀ tid th, pool c !! tid = Some th → task th ≠ Reset.

(** A request as a client sends it: the request line, one header line and
    the empty line. *)
Definition request (line : string) : istream :=
  istringstream (line +:+ CRLF +:+ "Host: localhost" +:+ CRLF +:+ CRLF).

(** One connection after the other on the same ledger: what each of them
    writes, and the ledger at the end. *)
Fixpoint serve (a0 : Z) (lines : list string) (m : gmap string Stock)
  : list string * gmap string Stock :=
  match lines with
  | [] => ([], m)
  | line :: rest =>
      let '(_, out, m1) := clientThread a0 (request line) m in
      let '(outs, m2) := serve a0 rest m1 in
      (out :: outs, m2)
  end.

(** Every balance is an [int]. *)
Definition balances_in_range (m : gmap string Stock) : Prop :=
  ∀ s r, m !! s = Some r → Int32.in_range (balance r).

(** The ledgers the server holds after serving connections one after the
    other, starting with the empty ledger; nothing is assumed of what the
    connections send. *)
Inductive served : gmap string Stock → Prop :=
  | served_nothing : served ∅
  | served_one a0 is0 m : served m → served (clientThread a0 is0 m).2.

(** Strings all of whose characters pass a test. *)
Fixpoint all_chars (p : ascii → bool) (s : string) : bool :=
  match s with
  | String c s' => p c && all_chars p s'
  | EmptyString => true
  end.

(** A character that [clientThread] keeps inside a token of the target:
    no white space, no [&] and no [=]. *)
Definition field_char (c : ascii) : bool :=
  negb (isspace c) && negb (bool_decide (c = "&"%char)) && negb (bool_decide (c = "="%char)).

(** A name or a value of the query string: not empty, of such characters. *)
Definition field (w : string) : Prop :=
  w ≠ EmptyString ∧ all_chars field_char w = true.

(** A token: not empty, without white space. *)
Definition word (w : string) : Prop :=
  w ≠ EmptyString ∧ all_chars (λ c, negb (isspace c)) w = true.

(** The target of the wire format, [p=verb&k2=stock&k3=amount], where [p]
    is the path up to the first equals sign. *)
Definition query (p verb k2 stock k3 amount : string) : string :=
  p +:+ "=" +:+ verb +:+ "&" +:+ k2 +:+ "=" +:+ stock +:+ "&" +:+ k3 +:+ "=" +:+ amount.

(** A line of the request head other than the one that ends it. *)
Definition header_line (h : string) : Prop :=
  all_chars (λ c, negb (bool_decide (c = LF))) h = true
  ∧ h ≠ EmptyString ∧ h ≠ String CR EmptyString.

(** Lines, each ended by a line feed, before [rest]. *)
Definition lines_before (hs : list string) (rest : string) : string :=
  foldr (λ h acc, h +:+ String LF acc) rest hs.

(** The change that an operation asks for in the balance of [s]. *)
Definition delta (s : string) (o : op) : Z :=
  match o with
  | Buy stock n => if decide (stock = s) then - n else 0
  | Sell stock n => if decide (stock = s) then n else 0
  | _ => 0
  end.

Definition net (s : string) (ops : list op) : Z :=
  foldr (λ o acc, delta s o + acc) 0 ops.

(** The operations that neither add nor remove a key. *)
Definition trade (o : op) : Prop :=
  match o with
  | Buy _ _ | Sell _ _ | Status _ => True
  | Create _ _ | Reset => False
  end.

(** Operations one after the other. *)
Definition run_ops (ops : list op) (m : gmap string Stock) : gmap string Stock :=
  foldl (λ m' o, (run_op o m').1) m ops.

(** The places a thread that runs [o] goes through. *)
Definition place_fits (o : op) (p : point) : bool :=
  match o, p with
  | Create _ _, AtRead => false
  | Create _ _, _ => true
  | (Buy _ _ | Sell _ _), (AtName | AtRead) => false
  | (Buy _ _ | Sell _ _), _ => true
  | Status _, (Start | AtRead | Finished) => true
  | Status _, _ => false
  | Reset, (Start | Finished) => true
  | Reset, _ => false
  end.

Definition places_fit (c : config) : Prop :=
  ∀ tid th, pool c !! tid = Some th → place_fits (task th) (place th) = true.

(** A locked mutex is held by a thread that is inside the Guard of its
    record. *)
Definition owners_inside (c : config) : Prop :=
  ∀ s t, held c !! s = Some t → ∃ th, pool c !! t = Some th ∧ guarding th = Some s.

(** A sum over the threads of a pool. *)
Definition total (f : thread → Z) (l : list thread) : Z :=
  foldr (λ th acc, f th + acc) 0 l.

(** How many steps a thread at a place has left, at most. *)
Definition rank (p : point) : Z :=
  match p with
  | Start => 6
  | AtSubscript => 5
  | AtLock => 4
  | AtName => 3
  | AtBalance => 2
  | AtUnlock => 1
  | AtRead => 1
  | Finished => 0
  end.

Definition steps_left (c : config) : Z := total (λ th, rank (place th)) (pool c).

(** The steps that a schedule gives to the thread [tid]. *)
Fixpoint steps_of (tid : nat) (schedule : list nat) : Z :=
  match schedule with
  | [] => 0
  | t :: rest => (if decide (t = tid) then 1 else 0) + steps_of tid rest
  end.

(** How many steps the thread [tid] of a pool has left, at most. *)
Definition steps_left_of (tid : nat) (c : config) : Z :=
  match pool c !! tid with
  | Some th => rank (place th)
  | None => 0
  end.

(** Whether a thread has made its change to the balance. *)
Definition settled (th : thread) : bool :=
  match place th with
  | AtUnlock | Finished => true
  | _ => false
  end.

(** What a thread has changed in the balance of [s] so far. *)
Definition applied (s : string) (th : thread) : Z :=
  if settled th then delta s (task th) else 0.

Definition all_finished (c : config) : Prop :=
  ∀ tid th, pool c !! tid = Some th → place th = Finished.

(** A ledger that holds the records of [m0], each with [T s] added to the
    balance of its symbol [s]. *)
Definition ledger_is (m0 : gmap string Stock) (T : string → Z) (m : gmap string Stock)
  : Prop :=
  ∀ s, m !! s = (λ r, mkStock (name r) (Int32.wrap (balance r + T s))) <$> m0 !! s.

(** A thread of a pool of buys, sells and status requests over the ledger
    [m0]: past its [find], its symbol is in [m0]; at its end, a buy or a sell
    has the result of the sequential operation on [m0]. *)
Definition trading (m0 : gmap string Stock) (th : thread) : Prop :=
  match task th with
  | Buy stock _ | Sell stock _ =>
      match place th with
      | Start => True
      | AtSubscript | AtLock | AtBalance | AtUnlock => is_Some (m0 !! stock)
      | Finished => ret th = (run_op (task th) m0).2
      | AtName | AtRead => False
      end
  | Status stock =>
      match place th with
      | Start | Finished => True
      | AtRead => is_Some (m0 !! stock)
      | _ => False
      end
  | Create _ _ | Reset => False
  end.

(** A pool that runs the buys, sells and status requests [tasks] over the
    ledger [m0]: the ledger holds what the threads have applied so far. *)
Definition trading_pool (m0 : gmap string Stock) (tasks : list op) (c : config) : Prop :=
  task <$> pool c = tasks
  ∧ (∀ tid th, pool c !! tid = Some th → trading m0 th)
  ∧ ledger_is m0 (λ s, total (applied s) (pool c)) (ledger c).

(** ** The update of a balance, access by access

    [balance -= amount] and [balance += amount] read the balance, compute,
    and write the result: two accesses to the record, and another thread may
    run between them.  [thread_step] takes the two as one step; here they
    are taken apart.  A thread that has read a balance holds the value until
    it writes; [loads] has the values held so, by thread. *)

(** The record and the computation of a thread that stands at the update of
    a balance. *)
Definition update (th : thread) : option (string * (Z → Z)) :=
  match task th, place th with
  | Buy stock amount, AtBalance => Some (stock, λ v, Int32.wrap (v - amount))
  | Sell stock amount, AtBalance => Some (stock, λ v, Int32.wrap (v + amount))
  | _, _ => None
  end.

(** One access of the thread [tid].  At an update: [sm::stockMap[stock]]
    with the read of [.balance], when the thread holds no value; the write
    of [.balance] to that record, when it holds one.  Anywhere else: its
    step. *)
Definition access (tid : nat) (c : config) (loads : gmap nat Z)
  : option (config * gmap nat Z) :=
  match pool c !! tid with
  | Some th =>
      match update th, loads !! tid with
      | Some (stock, f), None =>
          let '(m1, r) := subscript stock (ledger c) in
          Some (mkConfig (pool c) m1 (held c), <[tid := balance r]> loads)
      | Some (stock, f), Some v =>
          Some (mkConfig (<[tid := goto th AtUnlock]> (pool c))
                         (alter (set_balance (f v)) stock (ledger c)) (held c),
                delete tid loads)
      | None, _ =>
          match step tid c with
          | Some c' => Some (c', loads)
          | None => None
          end
      end
  | None => None
  end.

(** A schedule of accesses. *)
Fixpoint accesses (schedule : list nat) (c : config) (loads : gmap nat Z)
  : option (config * gmap nat Z) :=
  match schedule with
  | [] => Some (c, loads)
  | tid :: rest =>
      match access tid c loads with
      | Some (c', loads') => accesses rest c' loads'
      | None => None
      end
  end.

(** What a pool reaches access by access, whatever the schedule. *)
Inductive interleaves (c : config) (loads : gmap nat Z) : config → gmap nat Z → Prop :=
  | interleaves_here : interleaves c loads c loads
  | interleaves_access tid c' loads' c'' loads'' :
      interleaves c loads c' loads' →
      access tid c' loads' = Some (c'', loads'') →
      interleaves c loads c'' loads''.

(** Every value that a thread holds is the balance of the record as it
    stands in the ledger. *)
Definition loads_current (c : config) (loads : gmap nat Z) : Prop :=
  ∀ tid v, loads !! tid = Some v →
    ∃ th stock f r,
      pool c !! tid = Some th ∧ update th = Some (stock, f)
      ∧ ledger c !! stock = Some r ∧ balance r = v.

(** What holds of a pool of buys, sells and status requests at every
    access. *)
Definition trading_floor m0 (tasks : list op) (c : config) (loads : gmap nat Z) : Prop :=
  trading_pool m0 tasks c ∧ guards_held c ∧ loads_current c loads
  ∧ places_fit c ∧ owners_inside c.

(** * Properties *)

(** ** Integers and numerals *)

Lemma wrap_in_range (z : Z) : Int32.in_range z → Int32.wrap z = z.
Proof.
  unfold Int32.wrap, Int32.in_range.
  unfold Int32.min_signed, Int32.max_signed, Int32.modulus.
  intros Hz. rewrite Z.mod_small; lia.
Qed.

Lemma wrap_range (z : Z) : Int32.in_range (Int32.wrap z).
Proof.
  unfold Int32.wrap, Int32.in_range.
  unfold Int32.min_signed, Int32.max_signed, Int32.modulus.
  pose proof (Z.mod_pos_bound (z - - 2 ^ 31) (2 ^ 32)). lia.
Qed.

Example to_string_pos : to_string 100 = "100".
Proof. reflexivity. Qed.
Example to_string_neg : to_string (-2147483648) = "-2147483648".
Proof. reflexivity. Qed.
Example to_string_zero : to_string 0 = "0".
Proof. reflexivity. Qed.

Lemma digit_char_value (d : Z) :
  0 <= d < 10 →
  isdigit (digit_char d) = true
  ∧ Z.of_nat (nat_of_ascii (digit_char d)) - 48 = d.
Proof.
  intros Hd.
  assert (d = 0 ∨ d = 1 ∨ d = 2 ∨ d = 3 ∨ d = 4 ∨ d = 5 ∨ d = 6 ∨ d = 7
          ∨ d = 8 ∨ d = 9) as Hcases by lia.
  repeat (destruct Hcases as [-> | Hcases]; [by split|]). subst d. by split.
Qed.

Lemma decimal_go_digits (fuel : nat) (n : Z) (acc : string) :
  0 <= n → read_digits acc = (acc, EmptyString) →
  read_digits (decimal_go fuel n acc) = (decimal_go fuel n acc, EmptyString).
Proof.
  revert n acc. induction fuel as [|fuel IH]; intros n acc Hn Hacc;
    cbn [decimal_go]; [done|].
  assert (read_digits (String (digit_char (n mod 10)) acc)
          = (String (digit_char (n mod 10)) acc, EmptyString)) as Hstep.
  { destruct (digit_char_value (n mod 10)) as [Hd _].
    - apply Z.mod_pos_bound. lia.
    - cbn [read_digits]. by rewrite Hd, Hacc. }
  case_decide; [exact Hstep|]. apply IH; [|exact Hstep].
  apply Z.div_pos; lia.
Qed.

Lemma decimal_go_nonempty (fuel : nat) (n : Z) (acc : string) :
  acc ≠ EmptyString → decimal_go fuel n acc ≠ EmptyString.
Proof.
  revert n acc. induction fuel as [|fuel IH]; intros n acc Hacc;
    cbn [decimal_go]; [done|].
  case_decide; [done|]. by apply IH.
Qed.

Lemma decimal_go_value (fuel : nat) (n : Z) (acc : string) :
  0 <= n < 2 ^ Z.of_nat fuel →
  digits_value 0 (decimal_go fuel n acc) = digits_value n acc.
Proof.
  revert n acc. induction fuel as [|fuel IH]; intros n acc Hn.
  - cbn [decimal_go]. change (2 ^ Z.of_nat 0) with 1 in Hn.
    by replace n with 0 by lia.
  - cbn [decimal_go].
    destruct (digit_char_value (n mod 10)) as [_ Hd].
    { apply Z.mod_pos_bound. lia. }
    pose proof (Z.div_mod n 10) as Hdm.
    case_decide as Hq.
    + cbn [digits_value]. rewrite Hd. f_equal. lia.
    + rewrite IH.
      * cbn [digits_value]. rewrite Hd. f_equal. lia.
      * rewrite Nat2Z.inj_succ, Z.pow_succ_r in Hn by lia.
        split; [apply Z.div_pos; lia|].
        apply Z.div_lt_upper_bound; lia.
Qed.

(** The numeral [decimal n] is made of digits and denotes [n]. *)
Lemma decimal_denotes (n : Z) :
  0 <= n → numeral (decimal n) ∧ digits_value 0 (decimal n) = n.
Proof.
  intros Hn. unfold decimal. split; [split|].
  - cbn [decimal_go]. case_decide; [done|]. by apply decimal_go_nonempty.
  - by apply decimal_go_digits.
  - rewrite decimal_go_value; [reflexivity|].
    split; [exact Hn|].
    destruct (decide (n = 0)) as [->|Hne]; [done|].
    rewrite Nat2Z.inj_succ, Z2Nat.id by apply Z.log2_nonneg.
    apply Z.log2_spec. lia.
Qed.

(** ** The ledger, one operation at a time *)

Lemma found_present (m : gmap string Stock) stock r :
  m !! stock = Some r → found stock m = true.
Proof. intros Hm. unfold found. apply bool_decide_eq_true. by exists r. Qed.

Lemma found_absent (m : gmap string Stock) stock :
  m !! stock = None → found stock m = false.
Proof.
  intros Hm. unfold found. apply bool_decide_eq_false.
  rewrite Hm. by intros [? ?].
Qed.

Lemma subscript_present (m : gmap string Stock) stock r :
  m !! stock = Some r → subscript stock m = (m, r).
Proof. intros Hm. unfold subscript. by rewrite Hm. Qed.

Lemma subscript_absent (m : gmap string Stock) stock :
  m !! stock = None →
  subscript stock m = (<[stock := Stock_default]> m, Stock_default).
Proof. intros Hm. unfold subscript. by rewrite Hm. Qed.

Lemma assign_present (m : gmap string Stock) stock f r :
  m !! stock = Some r → assign stock f m = <[stock := f r]> m.
Proof. intros Hm. unfold assign. by rewrite (subscript_present _ _ _ Hm). Qed.

Lemma createS_absent (m : gmap string Stock) stock amount :
  m !! stock = None →
  createS stock amount m =
    (<[stock := mkStock stock amount]> m,
     "Stock " +:+ stock +:+ " created with balance = " +:+ to_string amount).
Proof.
  intros Hm. unfold createS.
  rewrite (found_absent _ _ Hm), (subscript_absent _ _ Hm). simpl.
  rewrite (assign_present _ stock (set_name stock) Stock_default)
    by apply lookup_insert_eq.
  rewrite (assign_present _ stock (set_balance amount) (set_name stock Stock_default))
    by apply lookup_insert_eq.
  by rewrite !insert_insert_eq.
Qed.

Lemma createS_present (m : gmap string Stock) stock amount r :
  m !! stock = Some r →
  createS stock amount m = (m, "Stock " +:+ stock +:+ " already exists").
Proof. intros Hm. unfold createS. by rewrite (found_present _ _ _ Hm). Qed.

Lemma buyS_present (m : gmap string Stock) stock amount r :
  m !! stock = Some r →
  buyS stock amount m =
    (<[stock := mkStock (name r) (Int32.wrap (balance r - amount))]> m,
     "Stock " +:+ stock +:+ "'s balance updated").
Proof.
  intros Hm. unfold buyS.
  rewrite (found_present _ _ _ Hm), (subscript_present _ _ _ Hm). simpl.
  by rewrite (assign_present _ _ _ _ Hm).
Qed.

Lemma sellS_present (m : gmap string Stock) stock amount r :
  m !! stock = Some r →
  sellS stock amount m =
    (<[stock := mkStock (name r) (Int32.wrap (balance r + amount))]> m,
     "Stock " +:+ stock +:+ "'s balance updated").
Proof.
  intros Hm. unfold sellS.
  rewrite (found_present _ _ _ Hm), (subscript_present _ _ _ Hm). simpl.
  by rewrite (assign_present _ _ _ _ Hm).
Qed.

Lemma statusS_present (m : gmap string Stock) stock r :
  m !! stock = Some r →
  statusS stock m =
    (m, "Balance for stock " +:+ stock +:+ " = " +:+ to_string (balance r)).
Proof.
  intros Hm. unfold statusS.
  by rewrite (found_present _ _ _ Hm), (subscript_present _ _ _ Hm).
Qed.

Lemma buyS_absent (m : gmap string Stock) stock amount :
  m !! stock = None → buyS stock amount m = (m, "Stock not found").
Proof. intros Hm. unfold buyS. by rewrite (found_absent _ _ Hm). Qed.

Lemma sellS_absent (m : gmap string Stock) stock amount :
  m !! stock = None → sellS stock amount m = (m, "Stock not found").
Proof. intros Hm. unfold sellS. by rewrite (found_absent _ _ Hm). Qed.

Lemma statusS_absent (m : gmap string Stock) stock :
  m !! stock = None → statusS stock m = (m, "Stock not found").
Proof. intros Hm. unfold statusS. by rewrite (found_absent _ _ Hm). Qed.

(** C1 (as amended).  For a symbol [s] that is in the ledger with record
    [r] and every amount [n], [buyS] returns "Stock s's balance updated" and
    leaves under [s] the balance [balance r - n] reduced to a 32-bit [int];
    [sellS] does the same with [balance r + n].  No floor or ceiling is
    checked: whenever the difference (the sum) is an [int], negative or not,
    it is the new balance exactly. *)
Theorem buy_sell_adjust_balance (m : gmap string Stock) (s : string) (r : Stock) (n : Z) :
  m !! s = Some r →
  buyS s n m =
    (<[s := mkStock (name r) (Int32.wrap (balance r - n))]> m,
     "Stock " +:+ s +:+ "'s balance updated")
  ∧ sellS s n m =
    (<[s := mkStock (name r) (Int32.wrap (balance r + n))]> m,
     "Stock " +:+ s +:+ "'s balance updated")
  ∧ (Int32.in_range (balance r - n) →
     (buyS s n m).1 !! s = Some (mkStock (name r) (balance r - n)))
  ∧ (Int32.in_range (balance r + n) →
     (sellS s n m).1 !! s = Some (mkStock (name r) (balance r + n))).
Proof.
  intros Hm.
  rewrite (buyS_present _ _ n _ Hm), (sellS_present _ _ n _ Hm).
  repeat split; intros Hr; simpl;
    rewrite lookup_insert_eq, (wrap_in_range _ Hr); reflexivity.
Qed.

(** C2.  For a symbol [s] that is not in the ledger, [createS s n] inserts
    the record of name [s] and balance [n] and returns "Stock s created
    with balance = n"; [statusS s] on the ledger it leaves returns "Balance
    for stock s = n". *)
Theorem create_then_status (m : gmap string Stock) (s : string) (n : Z) :
  m !! s = None →
  createS s n m =
    (<[s := mkStock s n]> m,
     "Stock " +:+ s +:+ " created with balance = " +:+ to_string n)
  ∧ statusS s (createS s n m).1 =
    (<[s := mkStock s n]> m,
     "Balance for stock " +:+ s +:+ " = " +:+ to_string n).
Proof.
  intros Hm. rewrite (createS_absent _ _ n Hm). split; [reflexivity|].
  simpl. apply (statusS_present _ s (mkStock s n)), lookup_insert_eq.
Qed.

(** C3.  The error results change nothing, each under its own condition.
    Whenever [s] is in the ledger, [createS s n] returns "Stock s already
    exists" and the ledger it was given.  Whenever [s] is not in the ledger
    (as every symbol of the empty ledger), [buyS s n], [sellS s n] and
    [statusS s] return "Stock not found" and the ledger they were given. *)
Theorem error_results_keep_ledger (m : gmap string Stock) (s : string) (n : Z) :
  (is_Some (m !! s) → createS s n m = (m, "Stock " +:+ s +:+ " already exists"))
  ∧ (m !! s = None →
     buyS s n m = (m, "Stock not found")
     ∧ sellS s n m = (m, "Stock not found")
     ∧ statusS s m = (m, "Stock not found")).
Proof.
  split.
  - intros [r Hs]. exact (createS_present _ _ n _ Hs).
  - intros Hs. split; [exact (buyS_absent _ _ n Hs)|].
    split; [exact (sellS_absent _ _ n Hs)|exact (statusS_absent _ _ Hs)].
Qed.

(** C4.  [resetS] returns the empty ledger and "Stocks reset" whatever the
    ledger was, also when reached through [process]; on the ledger it
    leaves, [statusS], [buyS] and [sellS] return "Stock not found" for
    every symbol. *)
Theorem reset_clears_ledger (m : gmap string Stock) (s x : string) (n a : Z) :
  resetS m = (∅, "Stocks reset")
  ∧ process "reset" x a m = (∅, "Stocks reset")
  ∧ statusS s (resetS m).1 = (∅, "Stock not found")
  ∧ buyS s n (resetS m).1 = (∅, "Stock not found")
  ∧ sellS s n (resetS m).1 = (∅, "Stock not found").
Proof.
  split; [reflexivity|]. split; [reflexivity|]. simpl.
  split; [apply statusS_absent, lookup_empty|].
  split; [apply buyS_absent, lookup_empty|apply sellS_absent, lookup_empty].
Qed.

(** C6.  A verb other than "create", "buy", "sell", "status" and "reset"
    makes [process] return "Invalid request" and the ledger it was given. *)
Theorem unknown_verb_is_invalid (trans stock : string) (a : Z) (m : gmap string Stock) :
  trans ∉ ["create"; "buy"; "sell"; "status"; "reset"] →
  process trans stock a m = (m, "Invalid request").
Proof.
  intros Hv. rewrite !not_elem_of_cons in Hv.
  destruct Hv as (Hcreate & Hbuy & Hsell & Hstatus & Hreset & _).
  unfold process. by rewrite !decide_False.
Qed.

(** Case analysis on whether [stock] is in the ledger [m], with the
    operation on [stock] replaced by its result in either case. *)
Ltac by_presence stock m Hm :=
  destruct (m !! stock) as [?r|] eqn:Hm;
  [ first [ rewrite (createS_present _ _ _ _ Hm)
          | rewrite (buyS_present _ _ _ _ Hm)
          | rewrite (sellS_present _ _ _ _ Hm)
          | rewrite (statusS_present _ _ _ Hm) ]
  | first [ rewrite (createS_absent _ _ _ Hm)
          | rewrite (buyS_absent _ _ _ Hm)
          | rewrite (sellS_absent _ _ _ Hm)
          | rewrite (statusS_absent _ _ Hm) ] ];
  cbn [fst snd].

(** The key set under each operation. *)
Lemma run_op_dom (o : op) (m : gmap string Stock) :
  match o with
  | Create stock _ => dom (run_op o m).1 = {[stock]} ∪ dom m
  | Buy _ _ | Sell _ _ | Status _ => dom (run_op o m).1 = dom m
  | Reset => dom (run_op o m).1 = ∅
  end.
Proof.
  destruct o as [stock n|stock n|stock n|stock|]; cbn [run_op];
    [by_presence stock m Hm..|apply dom_empty_L];
    try reflexivity;
    try apply (elem_of_dom_2 (D := gset string)) in Hm.
  - symmetry. by apply subseteq_union_1_L, singleton_subseteq_l.
  - apply dom_insert_L.
  - rewrite dom_insert_L. by apply subseteq_union_1_L, singleton_subseteq_l.
  - rewrite dom_insert_L. by apply subseteq_union_1_L, singleton_subseteq_l.
Qed.

Lemma insert_names_match (m : gmap string Stock) (stock : string) (r : Stock) :
  names_match_keys m → name r = stock → names_match_keys (<[stock := r]> m).
Proof.
  intros Hinv Hr s r' Hs. destruct (decide (stock = s)) as [->|Hne].
  - rewrite lookup_insert_eq in Hs. by inversion Hs; subst.
  - rewrite lookup_insert_ne in Hs by done. by apply Hinv.
Qed.

Lemma run_op_names (o : op) (m : gmap string Stock) :
  names_match_keys m → names_match_keys (run_op o m).1.
Proof.
  intros Hinv. destruct o as [stock n|stock n|stock n|stock|]; cbn [run_op];
    [by_presence stock m Hm..|]; try exact Hinv.
  - by apply insert_names_match.
  - apply insert_names_match; [exact Hinv|]. simpl. by apply Hinv.
  - apply insert_names_match; [exact Hinv|]. simpl. by apply Hinv.
  - intros s r Hs. cbn [resetS fst] in Hs. by rewrite lookup_empty in Hs.
Qed.

Lemma reachable_names (m : gmap string Stock) :
  reachable m → names_match_keys m.
Proof.
  induction 1 as [|o m _ IH].
  - intros s r Hs. by rewrite lookup_empty in Hs.
  - by apply run_op_names.
Qed.

(** C9.  In a ledger [m] that a sequence of operations builds from the
    empty one, every record stored under a key [s] has the name [s]; and
    for the next operation [o]: a key that it adds is the one a [Create]
    names, a key that it removes is removed by [Reset], and [Buy], [Sell]
    and [Status] leave the key set as it is. *)
Theorem ledger_invariant (m : gmap string Stock) (o : op) :
  reachable m →
  (∀ s r, m !! s = Some r → name r = s)
  ∧ (∀ k, k ∈ dom (run_op o m).1 → k ∉ dom m → ∃ n, o = Create k n)
  ∧ (∀ k, k ∈ dom m → k ∉ dom (run_op o m).1 → o = Reset)
  ∧ (∀ stock n, o = Buy stock n ∨ o = Sell stock n ∨ o = Status stock →
       dom (run_op o m).1 = dom m).
Proof.
  intros Hreach. split; [exact (reachable_names _ Hreach)|].
  pose proof (run_op_dom o m) as Hdom.
  repeat split.
  - intros k Hin Hout.
    destruct o as [stock n|stock n|stock n|stock|]; rewrite Hdom in Hin; try done.
    apply elem_of_union in Hin as [Hin|Hin]; [|done].
    apply elem_of_singleton in Hin. subst k. by exists n.
  - intros k Hin Hout.
    destruct o as [stock n|stock n|stock n|stock|]; try reflexivity;
      rewrite Hdom in Hout; try done.
    exfalso. apply Hout, elem_of_union. by right.
  - intros stock n [-> | [-> | ->]]; exact Hdom.
Qed.

(** C10.  With the verb "status" the result of [process] does not depend on
    the amount, and with the verb "reset" it depends neither on the symbol
    nor on the amount: the returned string and ledger are the same. *)
Theorem status_reset_ignore_arguments
    (stock stock' : string) (a a' : Z) (m : gmap string Stock) :
  process "status" stock a m = process "status" stock a' m
  ∧ process "reset" stock a m = process "reset" stock' a' m.
Proof. split; reflexivity. Qed.

(** The routing table of [process]. *)
Theorem process_routes (stock : string) (a : Z) (m : gmap string Stock) :
  process "create" stock a m = createS stock a m
  ∧ process "buy" stock a m = buyS stock a m
  ∧ process "sell" stock a m = sellS stock a m
  ∧ process "status" stock a m = statusS stock m
  ∧ process "reset" stock a m = resetS m.
Proof. repeat split. Qed.

(** [statusS] returns the ledger it was given, whatever the symbol. *)
Theorem status_reads_only (stock : string) (m : gmap string Stock) :
  (statusS stock m).1 = m.
Proof. by by_presence stock m Hm. Qed.

(** [createS], [buyS] and [sellS] on one symbol leave the record of every
    other symbol as it is. *)
Theorem other_records_untouched (stock k : string) (n : Z) (m : gmap string Stock) :
  k ≠ stock →
  (createS stock n m).1 !! k = m !! k
  ∧ (buyS stock n m).1 !! k = m !! k
  ∧ (sellS stock n m).1 !! k = m !! k.
Proof.
  intros Hne. destruct (m !! stock) as [r|] eqn:Hm.
  - rewrite (createS_present _ _ n _ Hm), (buyS_present _ _ n _ Hm),
      (sellS_present _ _ n _ Hm). simpl.
    by rewrite !lookup_insert_ne.
  - rewrite (createS_absent _ _ n Hm), (buyS_absent _ _ n Hm),
      (sellS_absent _ _ n Hm). simpl.
    by rewrite lookup_insert_ne.
Qed.

(** ** Streams and tokens *)

Lemma isspace_not_digit (c : ascii) : isspace c = true → isdigit c = false.
Proof.
  unfold isspace, isdigit. generalize (nat_of_ascii c). intros n Hn.
  apply orb_true_iff in Hn as [Hn|Hn].
  - apply Nat.eqb_eq in Hn. subst n. reflexivity.
  - apply andb_true_iff in Hn as [_ Hn]. apply Nat.leb_le in Hn.
    apply andb_false_iff. left. apply Nat.leb_gt. lia.
Qed.

Lemma append_nil_l (t : string) : EmptyString +:+ t = t.
Proof. reflexivity. Qed.

Lemma append_cons (c : ascii) (s t : string) : String c s +:+ t = String c (s +:+ t).
Proof. reflexivity. Qed.

Lemma append_nil_r (s : string) : s +:+ EmptyString = s.
Proof.
  induction s as [|c s IH]; [reflexivity|]. by rewrite append_cons, IH.
Qed.

Lemma append_assoc (s1 s2 s3 : string) : (s1 +:+ s2) +:+ s3 = s1 +:+ (s2 +:+ s3).
Proof.
  induction s1 as [|c s1 IH]; [reflexivity|]. by rewrite !append_cons, IH.
Qed.

Lemma append_snoc_nonempty (s : string) (c : ascii) (w : string) :
  s +:+ String c w ≠ EmptyString.
Proof. destruct s; discriminate. Qed.

Lemma read_word_split (s w rest : string) :
  read_word s = (w, rest) → s = w +:+ rest ∧ at_word_end rest.
Proof.
  revert w rest. induction s as [|c s IH]; intros w rest Hr; simpl in Hr.
  - inversion Hr. by split.
  - destruct (isspace c) eqn:Hc.
    + inversion Hr. subst. split; [reflexivity|exact Hc].
    + destruct (read_word s) as [w' rest'] eqn:Hs. inversion Hr. subst.
      destruct (IH w' rest eq_refl) as [-> Hend]. by split.
Qed.

Lemma tokens_from_read_word (s cur : string) :
  tokens_from cur s =
    if decide (cur +:+ (read_word s).1 = EmptyString)
    then tokens_from EmptyString (read_word s).2
    else (cur +:+ (read_word s).1) :: tokens_from EmptyString (read_word s).2.
Proof.
  revert cur. induction s as [|c s IH]; intros cur; simpl.
  - rewrite append_nil_r. by destruct (decide (cur = EmptyString)).
  - destruct (isspace c) eqn:Hc; simpl.
    + rewrite append_nil_r, Hc. by destruct (decide (cur = EmptyString)).
    + rewrite IH. destruct (read_word s) as [w rest]. simpl.
      rewrite append_assoc, append_cons, append_nil_l.
      rewrite !decide_False by apply append_snoc_nonempty. reflexivity.
Qed.

Lemma tokens_skipws (s : string) : tokens (skipws s) = tokens s.
Proof.
  unfold tokens. induction s as [|c s IH]; simpl; [reflexivity|].
  destruct (isspace c) eqn:Hc; [by rewrite IH|]. simpl. by rewrite Hc.
Qed.

Lemma skipws_starts_word (s : string) (c : ascii) (r : string) :
  skipws s = String c r → isspace c = false.
Proof.
  induction s as [|c' s IH]; simpl; [discriminate|].
  destruct (isspace c') eqn:Hc; [exact IH|]. intros Heq. by inversion Heq; subst.
Qed.

(** The tokens of a string that starts with a word. *)
Lemma tokens_word (c : ascii) (r : string) :
  isspace c = false →
  tokens (String c r) =
    (read_word (String c r)).1 :: tokens (read_word (String c r)).2.
Proof.
  intros Hc. unfold tokens at 1. rewrite tokens_from_read_word.
  simpl. rewrite Hc. destruct (read_word r) as [w rest]. simpl.
  reflexivity.
Qed.

Lemma istringstream_ok (str : string) : stream_ok (istringstream str).
Proof. by left. Qed.

(** [>>] into a string takes the first token off the stream; with no token
    left the string keeps its value. *)
Lemma extract_string_spec (st st' : istream) (old w : string) :
  stream_ok st →
  extract_string st old = (st', w) →
  stream_ok st'
  ∧ tokens (buffer st') = tail (tokens (buffer st))
  ∧ w = default old (head (tokens (buffer st))).
Proof.
  intros Hok. unfold extract_string, sentry.
  destruct (good st) eqn:Hgood.
  - rewrite <- (tokens_skipws (buffer st)).
    destruct (skipws (buffer st)) as [|c r] eqn:Hskip.
    + intros Heq. inversion Heq. subst. simpl. split; [by right|by split].
    + pose proof (skipws_starts_word _ _ _ Hskip) as Hc.
      rewrite (tokens_word _ _ Hc). cbn [buffer].
      destruct (read_word (String c r)) as [w' rest]. simpl.
      intros Heq. inversion Heq. subst. simpl. split; [|by split].
      unfold stream_ok, good. simpl.
      destruct (decide (rest = EmptyString)) as [->|Hne]; [by right|left].
      by rewrite bool_decide_eq_false_2.
  - destruct Hok as [Hok|Hok]; [congruence|]. rewrite Hok.
    intros Heq. inversion Heq. subst. simpl. split; [by right|by split].
Qed.

Lemma read_digits_numeral (t rest : string) :
  read_digits t = (t, EmptyString) →
  match rest with String c _ => isdigit c = false | EmptyString => True end →
  read_digits (t +:+ rest) = (t, rest).
Proof.
  intros Ht Hrest. induction t as [|c t IH].
  - rewrite append_nil_l. destruct rest as [|c r]; [reflexivity|].
    simpl. by rewrite Hrest.
  - rewrite append_cons. simpl in *. destruct (isdigit c); [|discriminate].
    destruct (read_digits t) as [d r]. inversion Ht. subst.
    by rewrite IH.
Qed.

Lemma digits_value_nonneg (t : string) (acc : Z) :
  read_digits t = (t, EmptyString) → 0 <= acc → 0 <= digits_value acc t.
Proof.
  revert acc. induction t as [|c t IH]; intros acc Ht Hacc; simpl in *; [done|].
  destruct (isdigit c) eqn:Hc; [|discriminate].
  destruct (read_digits t) as [d r]. inversion Ht. subst.
  apply IH; [reflexivity|].
  unfold isdigit in Hc. apply andb_true_iff in Hc as [Hc _].
  apply Nat.leb_le in Hc. lia.
Qed.

Lemma digit_not_sign (c : ascii) :
  isdigit c = true → c ≠ "-"%char ∧ c ≠ "+"%char.
Proof. intros Hc. split; intros ->; discriminate. Qed.

(** [>>] into an [unsigned int], when the next token is a numeral that
    fits: its value is stored. *)
Lemma extract_unsigned_numeral (st : istream) (old : Z) (t : string) :
  stream_ok st →
  head (tokens (buffer st)) = Some t →
  numeral t →
  digits_value 0 t <= Int32.max_unsigned →
  (extract_unsigned st old).2 = digits_value 0 t.
Proof.
  intros Hok Hhead [Hne Hdigits] Hfit. unfold extract_unsigned, sentry.
  destruct (good st) eqn:Hgood.
  - rewrite <- (tokens_skipws (buffer st)) in Hhead.
    destruct (skipws (buffer st)) as [|c r] eqn:Hskip; [discriminate|].
    pose proof (skipws_starts_word _ _ _ Hskip) as Hc.
    rewrite (tokens_word _ _ Hc) in Hhead. cbn [head] in Hhead.
    destruct (read_word (String c r)) as [w rest] eqn:Hw.
    cbn [fst] in Hhead. inversion Hhead. subst w.
    apply read_word_split in Hw as [Hsplit Hend]. cbn [buffer].
    destruct t as [|d t']; [done|].
    rewrite append_cons in Hsplit. inversion Hsplit. subst d.
    assert (isdigit c = true) as Hd.
    { simpl in Hdigits. by destruct (isdigit c). }
    destruct (digit_not_sign _ Hd) as [Hminus Hplus].
    unfold read_sign. rewrite !decide_False by done.
    rewrite <- (append_cons c t' rest).
    rewrite (read_digits_numeral _ rest Hdigits).
    + rewrite decide_False by done.
      by rewrite decide_False by lia.
    + destruct rest as [|c' r']; [done|]. by apply isspace_not_digit.
  - destruct Hok as [Hok|Hok]; [congruence|]. by rewrite Hok in Hhead.
Qed.

(** [>>] into an [unsigned int] with no token left: the variable keeps its
    value. *)
Lemma extract_unsigned_nothing (st : istream) (old : Z) :
  stream_ok st → tokens (buffer st) = [] → (extract_unsigned st old).2 = old.
Proof.
  intros Hok Hnone. unfold extract_unsigned, sentry.
  destruct (good st); [|reflexivity].
  rewrite <- (tokens_skipws (buffer st)) in Hnone.
  destruct (skipws (buffer st)) as [|c r] eqn:Hskip; [reflexivity|].
  rewrite (tokens_word _ _ (skipws_starts_word _ _ _ Hskip)) in Hnone.
  discriminate.
Qed.

Lemma split_line_shorter (b l rest : string) (nl : bool) :
  b ≠ EmptyString → split_line b = (l, rest, nl) →
  (String.length rest < String.length b)%nat.
Proof.
  revert l rest nl. induction b as [|c b IH]; intros l rest nl Hb Hsplit; [done|].
  cbn [split_line] in Hsplit. case_decide.
  - inversion Hsplit. subst. simpl. lia.
  - destruct (split_line b) as [[l' rest'] nl'] eqn:Hb'. inversion Hsplit. subst.
    destruct b as [|c' b'].
    + inversion Hb'. simpl. lia.
    + specialize (IH _ _ _ ltac:(done) eq_refl). simpl in *. lia.
Qed.

(** A [getline] that does not fail takes at least one character. *)
Lemma getline_consumes (st st1 : istream) (old l : string) :
  getline st old = (st1, l) → failbit st1 = false →
  (String.length (buffer st1) < String.length (buffer st))%nat.
Proof.
  unfold getline. destruct (good st).
  - destruct (buffer st) as [|c b] eqn:Hbuf.
    + intros Heq. by inversion Heq.
    + destruct (split_line (String c b)) as [[l' rest] nl] eqn:Hsplit.
      intros Heq _. inversion Heq. subst. cbn [buffer].
      by eapply split_line_shorter.
  - intros Heq. by inversion Heq.
Qed.

(** The header loop has fuel enough: more of it changes nothing. *)
Lemma skip_headers_fuel (fuel1 fuel2 : nat) (st : istream) (hdr : string) :
  (String.length (buffer st) < fuel1)%nat →
  (String.length (buffer st) < fuel2)%nat →
  skip_headers fuel1 st hdr = skip_headers fuel2 st hdr.
Proof.
  revert fuel2 st hdr. induction fuel1 as [|fuel1 IH]; intros fuel2 st hdr H1 H2; [lia|].
  destruct fuel2 as [|fuel2]; [lia|]. cbn [skip_headers].
  destruct (getline st hdr) as [st1 hdr1] eqn:Hline.
  destruct (failbit st1) eqn:Hfail; [reflexivity|]. cbn [negb andb].
  destruct (negb (bool_decide (hdr1 = EmptyString))
            && negb (bool_decide (hdr1 = String CR EmptyString))); [|reflexivity].
  pose proof (getline_consumes _ _ _ _ Hline Hfail). apply IH; lia.
Qed.

(** What [read_request] returns, token by token: the target is the second
    token of the line (the first when there is no second, the empty string
    when there is none); the transaction and the stock are the second and
    the fourth token of the target made plain (empty when there is no such
    token), and the amount is extracted from what follows the fifth. *)
Lemma read_request_tokens (a0 : Z) (line : string) :
  let url := default (default EmptyString (head (tokens line))) (tokens line !! 1%nat) in
  let norm := replace "=" " " (replace "&" " " (url_decode url)) in
  ∃ st : istream,
    stream_ok st
    ∧ tokens (buffer st) = drop 5 (tokens norm)
    ∧ read_request a0 line =
        (default EmptyString (tokens norm !! 1%nat),
         default EmptyString (tokens norm !! 3%nat),
         (extract_unsigned st a0).2).
Proof.
  unfold read_request.
  destruct (extract_string (istringstream line) EmptyString) as [l1 u1] eqn:E1.
  apply extract_string_spec in E1 as (Hl1 & Tl1 & ->); [|apply istringstream_ok].
  destruct (extract_string l1 _) as [l2 u2] eqn:E2.
  apply extract_string_spec in E2 as (Hl2 & Tl2 & ->); [|exact Hl1].
  rewrite Tl1. cbn [istringstream buffer].
  assert (default (default EmptyString (head (tokens line))) (head (tail (tokens line)))
          = default (default EmptyString (head (tokens line))) (tokens line !! 1%nat)) as ->.
  { by destruct (tokens line) as [|? [|? ?]]. }
  set (norm := replace "=" " " (replace "&" " " (url_decode _))).
  destruct (extract_string (istringstream norm) EmptyString) as [s1 x1] eqn:X1.
  apply extract_string_spec in X1 as (Hs1 & Ts1 & ->); [|apply istringstream_ok].
  destruct (extract_string s1 EmptyString) as [s2 trans] eqn:X2.
  apply extract_string_spec in X2 as (Hs2 & Ts2 & ->); [|exact Hs1].
  destruct (extract_string s2 _) as [s3 x3] eqn:X3.
  apply extract_string_spec in X3 as (Hs3 & Ts3 & ->); [|exact Hs2].
  destruct (extract_string s3 EmptyString) as [s4 stock] eqn:X4.
  apply extract_string_spec in X4 as (Hs4 & Ts4 & ->); [|exact Hs3].
  destruct (extract_string s4 _) as [s5 x5] eqn:X5.
  apply extract_string_spec in X5 as (Hs5 & Ts5 & ->); [|exact Hs4].
  destruct (extract_unsigned s5 a0) as [s6 a] eqn:X6.
  exists s5. split; [exact Hs5|].
  rewrite X6, Ts5, Ts4, Ts3, Ts2, Ts1. cbn [istringstream buffer snd].
  by destruct (tokens norm) as [|t1 [|t2 [|t3 [|t4 [|t5 l]]]]].
Qed.

Lemma clientThread_response (a0 : Z) (is0 : istream) (m : gmap string Stock) :
  let '(trans, stock, a) := read_request a0 (getline is0 EmptyString).2 in
  (clientThread a0 is0 m).1.2 = response (process trans stock (Int32.of_unsigned a) m).2
  ∧ (clientThread a0 is0 m).2 = (process trans stock (Int32.of_unsigned a) m).1.
Proof.
  unfold clientThread. destruct (getline is0 EmptyString) as [is1 line]. simpl.
  destruct (read_request a0 line) as [[trans stock] a].
  by destruct (process trans stock (Int32.of_unsigned a) m) as [m' data].
Qed.

Lemma response_bytes (data : string) :
  response data =
    "HTTP/1.1 200 OK" +:+ CRLF +:+
    "Server: SimpleServer" +:+ CRLF +:+
    "Content-Length: " +:+ decimal (Z.of_nat (String.length data)) +:+ CRLF +:+
    "Connection: Close" +:+ CRLF +:+
    "Content-Type: text/html" +:+ CRLF +:+ CRLF +:+ data.
Proof.
  unfold response. generalize (decimal (Z.of_nat (String.length data))).
  intros len. rewrite <- !append_assoc.
  apply (f_equal (λ h, h +:+ data)).
  rewrite !append_assoc. reflexivity.
Qed.

(** C7.  Whatever the handler reads, what it writes is the status line
    "HTTP/1.1 200 OK", the [Server] header, a [Content-Length] header, the
    [Connection: Close] and [Content-Type] headers, an empty line, and the
    result string of [process], after which nothing follows; the value of
    the [Content-Length] header is a decimal numeral that denotes the
    length in bytes of the result string. *)
Theorem response_is_200_with_length (a0 : Z) (is0 : istream) (m : gmap string Stock) :
  let '(trans, stock, a) := read_request a0 (getline is0 EmptyString).2 in
  let data := (process trans stock (Int32.of_unsigned a) m).2 in
  let len := decimal (Z.of_nat (String.length data)) in
  (clientThread a0 is0 m).1.2 =
    "HTTP/1.1 200 OK" +:+ CRLF +:+
    "Server: SimpleServer" +:+ CRLF +:+
    "Content-Length: " +:+ len +:+ CRLF +:+
    "Connection: Close" +:+ CRLF +:+
    "Content-Type: text/html" +:+ CRLF +:+ CRLF +:+ data
  ∧ numeral len
  ∧ digits_value 0 len = Z.of_nat (String.length data).
Proof.
  pose proof (clientThread_response a0 is0 m) as Hresp.
  destruct (read_request a0 (getline is0 EmptyString).2) as [[trans stock] a].
  destruct Hresp as [-> _]. split; [apply response_bytes|].
  apply decimal_denotes. lia.
Qed.

(** C8 (as amended).  For every request line the handler takes the second
    token as the target (the first when there is no second, the empty
    string when there is none).  The target is percent-decoded and every
    [&] and [=] in it replaced by a space; of what results, the tokens at
    positions 2 and 4 are the transaction and the stock (the empty string
    where there is no such token), and the response and the ledger are
    those of [process] on these two and an amount [a] converted from
    [unsigned int] to [int].  When the token at position 6 is a decimal
    numeral of value at most [2^32 - 1], [a] is that value, and [process]
    receives it as it is up to [2^31 - 1] and less [2^32] above; with no
    token at position 6, [a] is left as it was.  The tokens at positions 1,
    3 and 5, where the field names stand, are not looked at. *)
Theorem request_fields_by_position (a0 : Z) (is0 : istream) (m : gmap string Stock) :
  let line := (getline is0 EmptyString).2 in
  let target := default (default EmptyString (head (tokens line))) (tokens line !! 1%nat) in
  let norm := replace "=" " " (replace "&" " " (url_decode target)) in
  let v := default EmptyString (tokens norm !! 1%nat) in
  let s := default EmptyString (tokens norm !! 3%nat) in
  ∃ a : Z,
    read_request a0 line = (v, s, a)
    ∧ (clientThread a0 is0 m).1.2 = response (process v s (Int32.of_unsigned a) m).2
    ∧ (clientThread a0 is0 m).2 = (process v s (Int32.of_unsigned a) m).1
    ∧ (∀ t, tokens norm !! 5%nat = Some t → numeral t →
            digits_value 0 t <= Int32.max_unsigned →
            a = digits_value 0 t
            ∧ (digits_value 0 t <= Int32.max_signed →
               Int32.of_unsigned a = digits_value 0 t)
            ∧ (Int32.max_signed < digits_value 0 t →
               Int32.of_unsigned a = digits_value 0 t - Int32.modulus))
    ∧ (tokens norm !! 5%nat = None → a = a0).
Proof.
  intros line target norm v s.
  destruct (read_request_tokens a0 line) as (st & Hok & Hst & Hreq).
  fold target norm v s in Hst, Hreq.
  exists (extract_unsigned st a0).2.
  split; [exact Hreq|].
  pose proof (clientThread_response a0 is0 m) as Hresp.
  fold line in Hresp. rewrite Hreq in Hresp.
  destruct Hresp as [Hout Hledger]. split; [exact Hout|]. split; [exact Hledger|].
  split.
  - intros t Ht Hnum Hfit.
    assert ((extract_unsigned st a0).2 = digits_value 0 t) as ->.
    { apply extract_unsigned_numeral; [exact Hok| |exact Hnum|exact Hfit].
      by rewrite Hst, head_lookup, lookup_drop. }
    destruct Hnum as [_ Hdigits].
    pose proof (digits_value_nonneg t 0 Hdigits) as Hpos.
    split; [reflexivity|]. unfold Int32.of_unsigned. split.
    + intros Hsmall. apply wrap_in_range.
      unfold Int32.in_range, Int32.min_signed. lia.
    + intros Hbig. unfold Int32.wrap.
      unfold Int32.max_signed, Int32.max_unsigned in *.
      unfold Int32.min_signed, Int32.modulus.
      replace (digits_value 0 t - - 2 ^ 31)
        with ((digits_value 0 t - 2 ^ 31) + 1 * 2 ^ 32) by lia.
      rewrite Z.mod_add by lia. rewrite Z.mod_small; lia.
  - intros Hnone. apply extract_unsigned_nothing; [exact Hok|].
    rewrite Hst. apply drop_ge. by apply lookup_ge_None.
Qed.

(** ** Threads *)

(** What a step of a thread that does not reset can do to the mutexes:
    nothing, while it stays inside or outside its Guard or leaves it; lock a
    free one and enter the Guard; or unlock and leave the Guard. *)
Lemma thread_step_locks tid th m h th' m' h' :
  thread_step tid th m h = Some (th', m', h') →
  task th ≠ Reset →
  task th' = task th
  ∧ ((h' = h ∧ guarding th' = guarding th)
     ∨ (h' = h ∧ guarding th = None ∧ guarding th' = None)
     ∨ (∃ stock, h !! stock = None ∧ h' = <[stock := tid]> h
                 ∧ guarding th = None ∧ guarding th' = Some stock)
     ∨ (∃ stock, h' = release tid stock h
                 ∧ guarding th = Some stock ∧ guarding th' = None)).
Proof.
  destruct th as [o p r]. unfold thread_step, acquire. simpl.
  intros Hstep Hreset.
  destruct o as [stock n|stock n|stock n|stock|]; [| | | |done];
    destruct p; simpl in Hstep; try discriminate;
    repeat match type of Hstep with
      | context [found ?k ?x] => destruct (found k x)
      | context [subscript ?k ?x] => destruct (subscript k x)
      | context [h !! ?k] => destruct (h !! k) eqn:Hfree
      end;
    simpl in Hstep; try discriminate;
    inversion Hstep; subst; (split; [reflexivity|]);
    first
      [ by left
      | by right; left
      | by right; right; left; exists stock
      | by right; right; right; exists stock ].
Qed.

Lemma subscript_keeps (stock k : string) (m : gmap string Stock) (r : Stock) :
  m !! k = Some r → (subscript stock m).1 !! k = Some r.
Proof.
  intros Hk. unfold subscript. destruct (m !! stock) eqn:Hs; [done|]. simpl.
  rewrite lookup_insert_ne; [done|]. intros ->. congruence.
Qed.

Lemma assign_keeps_others (stock k : string) f (m : gmap string Stock) (r : Stock) :
  k ≠ stock → m !! k = Some r → assign stock f m !! k = Some r.
Proof.
  intros Hne Hk. unfold assign.
  pose proof (subscript_keeps stock k m r Hk) as Hsub.
  destruct (subscript stock m) as [m1 r1]. simpl in Hsub.
  by rewrite lookup_insert_ne.
Qed.


Lemma step_keeps_guards (tid : nat) (c c' : config) :
  reset_free c → guards_held c → step tid c = Some c' →
  reset_free c' ∧ guards_held c'.
Proof.
  intros Hfree Hinv. unfold step.
  destruct (pool c !! tid) as [th|] eqn:Hth; [|discriminate].
  destruct (thread_step tid th (ledger c) (held c)) as [[[th' m'] h']|] eqn:Hstep;
    [|discriminate].
  intros Heq. inversion Heq. subst c'. clear Heq.
  destruct (thread_step_locks _ _ _ _ _ _ _ Hstep (Hfree _ _ Hth)) as [Htask Hlocks].
  assert (tid < List.length (pool c))%nat as Hlen by (by eapply lookup_lt_Some).
  split.
  - intros tid' th''. simpl. intros Hl.
    destruct (decide (tid = tid')) as [<-|Hne].
    + rewrite list_lookup_insert_eq in Hl by done. inversion Hl. subst.
      rewrite Htask. by eapply Hfree.
    + rewrite list_lookup_insert_ne in Hl by done. by eapply Hfree.
  - intros tid' th'' stock. simpl. intros Hl Hg.
    destruct (decide (tid = tid')) as [<-|Hne].
    + rewrite list_lookup_insert_eq in Hl by done. inversion Hl. subst th''.
      destruct Hlocks as [[-> Hsame]|[[-> [_ Hnone]]|[(k & _ & -> & _ & Hk)|(k & _ & _ & Hnone)]]].
      * rewrite Hsame in Hg. by eapply Hinv.
      * congruence.
      * rewrite Hk in Hg. inversion Hg. subst. apply lookup_insert_eq.
      * congruence.
    + rewrite list_lookup_insert_ne in Hl by done.
      pose proof (Hinv _ _ _ Hl Hg) as Hheld.
      destruct Hlocks as [[-> _]|[[-> _]|[(k & Hk & -> & _)|(k & -> & Hmine & _)]]];
        [done|done| |].
      * rewrite lookup_insert_ne; [done|]. intros ->. congruence.
      * unfold release. case_decide as Hown; [|done].
        rewrite lookup_delete_ne; [done|]. intros ->. congruence.
Qed.

Lemma spawn_guards_held (tasks : list op) (m : gmap string Stock) :
  guards_held (spawn tasks m).
Proof.
  intros tid th stock. unfold spawn. simpl. rewrite list_lookup_fmap.
  destruct (tasks !! tid) as [o|]; [|discriminate]. simpl.
  intros Heq. inversion Heq. subst. by destruct o.
Qed.



Lemma run_thread_run (n tid : nat) (c : config) th th' m' h' :
  pool c !! tid = Some th →
  thread_run n tid th (ledger c) (held c) = Some (th', m', h') →
  run (replicate n tid) c = Some (mkConfig (<[tid := th']> (pool c)) m' h').
Proof.
  revert c th. induction n as [|n IH]; intros c th Hth Hrun; simpl in *.
  - inversion Hrun. subst. rewrite list_insert_id by done. by destruct c.
  - destruct (thread_step tid th (ledger c) (held c)) as [[[th1 m1] h1]|] eqn:Hstep;
      [|discriminate].
    assert (tid < List.length (pool c))%nat as Hlen by (by eapply lookup_lt_Some).
    unfold step. rewrite Hth, Hstep.
    rewrite (IH (mkConfig (<[tid := th1]> (pool c)) m1 h1) th1); simpl.
    + by rewrite list_insert_insert_eq.
    + by apply list_lookup_insert_eq.
    + exact Hrun.
Qed.

Lemma release_acquired (tid : nat) (stock : string) :
  release tid stock (<[stock := tid]> ∅) = ∅.
Proof.
  unfold release. rewrite lookup_insert_eq, decide_True by done.
  by rewrite delete_insert_eq, delete_empty.
Qed.

Lemma acquire_free tid stock th next (m : gmap string Stock) :
  acquire tid stock th next m ∅ = Some (goto th next, m, <[stock := tid]> ∅).
Proof. unfold acquire. by rewrite lookup_empty. Qed.



(** ** More on the ledger and the handler *)

Lemma wrap_add_l (x y : Z) : Int32.wrap (Int32.wrap x + y) = Int32.wrap (x + y).
Proof.
  unfold Int32.wrap.
  replace ((x - Int32.min_signed) mod Int32.modulus + Int32.min_signed + y
           - Int32.min_signed)
    with ((x - Int32.min_signed) mod Int32.modulus + y) by lia.
  rewrite Zplus_mod_idemp_l. do 2 f_equal. lia.
Qed.

(** A second [createS] of a symbol never overwrites: whatever the ledger
    and the two amounts, it returns "Stock s already exists" and the
    ledger the first one left. *)
Theorem create_never_overwrites (m : gmap string Stock) (s : string) (n n' : Z) :
  createS s n' (createS s n m).1 =
    ((createS s n m).1, "Stock " +:+ s +:+ " already exists").
Proof.
  destruct (m !! s) as [r|] eqn:Hm.
  - rewrite (createS_present _ _ n _ Hm). cbn [fst].
    exact (createS_present _ _ n' _ Hm).
  - rewrite (createS_absent _ _ n Hm). cbn [fst].
    apply (createS_present _ _ n' (mkStock s n)), lookup_insert_eq.
Qed.

(** Buying and then selling the same amount, or selling and then buying
    it, gives back the ledger as it was, for a record whose balance is an
    [int]; this holds for every amount, also where the balance in between
    wraps around. *)
Theorem buy_sell_round_trip (m : gmap string Stock) (s : string) (r : Stock) (n : Z) :
  m !! s = Some r →
  Int32.in_range (balance r) →
  (sellS s n (buyS s n m).1).1 = m ∧ (buyS s n (sellS s n m).1).1 = m.
Proof.
  intros Hm Hr. rewrite (buyS_present _ _ n _ Hm), (sellS_present _ _ n _ Hm).
  cbn [fst]. split.
  - rewrite (sellS_present _ s n (mkStock (name r) (Int32.wrap (balance r - n))))
      by apply lookup_insert_eq.
    cbn [fst name balance]. rewrite insert_insert_eq, wrap_add_l.
    replace (balance r - n + n) with (balance r) by lia.
    rewrite (wrap_in_range _ Hr). apply insert_id. by destruct r.
  - rewrite (buyS_present _ s n (mkStock (name r) (Int32.wrap (balance r + n))))
      by apply lookup_insert_eq.
    cbn [fst name balance]. rewrite insert_insert_eq.
    replace (Int32.wrap (balance r + n) - n)
      with (Int32.wrap (balance r + n) + - n) by lia.
    rewrite wrap_add_l.
    replace (balance r + n + - n) with (balance r) by lia.
    rewrite (wrap_in_range _ Hr). apply insert_id. by destruct r.
Qed.

Lemma insert_balances_in_range (m : gmap string Stock) (stock : string) (r : Stock) :
  balances_in_range m → Int32.in_range (balance r) →
  balances_in_range (<[stock := r]> m).
Proof.
  intros Hinv Hr s r' Hs. destruct (decide (stock = s)) as [->|Hne].
  - rewrite lookup_insert_eq in Hs. by inversion Hs; subst.
  - rewrite lookup_insert_ne in Hs by done. by eapply Hinv.
Qed.

Lemma run_op_balances_in_range (o : op) (m : gmap string Stock) :
  balances_in_range m →
  (∀ stock n, o = Create stock n → Int32.in_range n) →
  balances_in_range (run_op o m).1.
Proof.
  intros Hinv Hamount.
  destruct o as [stock n|stock n|stock n|stock|]; cbn [run_op];
    [by_presence stock m Hm..|]; try exact Hinv.
  - apply insert_balances_in_range; [exact Hinv|]. by apply (Hamount stock n).
  - apply insert_balances_in_range; [exact Hinv|]. apply wrap_range.
  - apply insert_balances_in_range; [exact Hinv|]. apply wrap_range.
  - intros s r Hs. cbn [resetS fst] in Hs. by rewrite lookup_empty in Hs.
Qed.

(** [process] is one of the five operations, or none. *)
Lemma process_run_op (trans stock : string) (a : Z) (m : gmap string Stock) :
  (process trans stock a m).1 = m
  ∨ ∃ o, (process trans stock a m).1 = (run_op o m).1
         ∧ ∀ s n, o = Create s n → n = a.
Proof.
  unfold process.
  case_decide; [right; exists (Create stock a); split; [done|by intros ?? [= _ ->]]|].
  case_decide; [right; exists (Buy stock a); by split|].
  case_decide; [right; exists (Sell stock a); by split|].
  case_decide; [right; exists (Status stock); by split|].
  case_decide; [right; exists Reset; by split|]. by left.
Qed.

(** Whatever the connections send, in every ledger the server holds after
    serving them one after the other, each record is stored under its own
    name and each balance is an [int]. *)
Theorem served_ledger_invariant (m : gmap string Stock) :
  served m → names_match_keys m ∧ balances_in_range m.
Proof.
  induction 1 as [|a0 is0 m _ [IHn IHb]].
  - split; intros s r Hs; by rewrite lookup_empty in Hs.
  - pose proof (clientThread_response a0 is0 m) as Hresp.
    destruct (read_request a0 (getline is0 EmptyString).2) as [[trans stock] a].
    destruct Hresp as [_ ->].
    destruct (process_run_op trans stock (Int32.of_unsigned a) m)
      as [->|(o & -> & Ho)]; [by split|].
    split; [by apply run_op_names|].
    apply run_op_balances_in_range; [exact IHb|].
    intros s n Hc. rewrite (Ho _ _ Hc). apply wrap_range.
Qed.

(** A target that, made plain, has no second token names no transaction:
    the handler answers "Invalid request" and leaves the ledger as it is.
    So do a line with no target and the end of the input. *)
Theorem no_verb_is_invalid (a0 : Z) (is0 : istream) (m : gmap string Stock) :
  let line := (getline is0 EmptyString).2 in
  let target := default (default EmptyString (head (tokens line))) (tokens line !! 1%nat) in
  tokens (replace "=" " " (replace "&" " " (url_decode target))) !! 1%nat = None →
  (clientThread a0 is0 m).1.2 = response "Invalid request"
  ∧ (clientThread a0 is0 m).2 = m.
Proof.
  intros line target Hnone.
  destruct (read_request_tokens a0 line) as (st & _ & _ & Hreq).
  fold target in Hreq. rewrite Hnone in Hreq. cbn [default from_option] in Hreq.
  pose proof (clientThread_response a0 is0 m) as Hresp.
  fold line in Hresp. rewrite Hreq in Hresp. exact Hresp.
Qed.

(** ** The wire format *)

Lemma all_chars_append (p : ascii → bool) (s t : string) :
  all_chars p (s +:+ t) = all_chars p s && all_chars p t.
Proof.
  induction s as [|c s IH]; [reflexivity|].
  rewrite append_cons. cbn [all_chars]. by rewrite IH, andb_assoc.
Qed.

Lemma all_chars_weaken (p q : ascii → bool) (s : string) :
  (∀ c, p c = true → q c = true) → all_chars p s = true → all_chars q s = true.
Proof.
  intros Hpq. induction s as [|c s IH]; [done|]. cbn [all_chars].
  rewrite !andb_true_iff. intros [Hc Hs]. split; [by apply Hpq|by apply IH].
Qed.

Lemma field_char_not_space (c : ascii) : field_char c = true → negb (isspace c) = true.
Proof. unfold field_char. rewrite !andb_true_iff. by intros [[? _] _]. Qed.

Lemma field_word (w : string) : field w → word w.
Proof.
  intros [Hne Hall]. split; [exact Hne|].
  exact (all_chars_weaken _ _ _ field_char_not_space Hall).
Qed.

Lemma tokens_from_word (w cur s : string) :
  all_chars (λ c, negb (isspace c)) w = true →
  tokens_from cur (w +:+ s) = tokens_from (cur +:+ w) s.
Proof.
  revert cur. induction w as [|c w IH]; intros cur Hw.
  - by rewrite append_nil_l, append_nil_r.
  - cbn [all_chars] in Hw. apply andb_true_iff in Hw as [Hc Hw].
    rewrite append_cons. cbn [tokens_from].
    apply negb_true_iff in Hc. rewrite Hc, (IH _ Hw), append_assoc.
    by rewrite append_cons, append_nil_l.
Qed.

(** A word before white space is the first token. *)
Lemma tokens_word_then (w : string) (c : ascii) (s : string) :
  word w → isspace c = true → tokens (w +:+ String c s) = w :: tokens s.
Proof.
  intros [Hne Hw] Hc. unfold tokens. rewrite (tokens_from_word _ _ _ Hw).
  rewrite append_nil_l. cbn [tokens_from]. rewrite Hc.
  by rewrite decide_False.
Qed.

Lemma tokens_one_word (w : string) : word w → tokens w = [w].
Proof.
  intros [Hne Hw]. unfold tokens. rewrite <- (append_nil_r w) at 1.
  rewrite (tokens_from_word _ _ _ Hw), append_nil_l. cbn [tokens_from].
  by rewrite decide_False.
Qed.

Lemma replace_append (a b : ascii) (s t : string) :
  replace a b (s +:+ t) = replace a b s +:+ replace a b t.
Proof.
  induction s as [|c s IH]; [reflexivity|].
  rewrite append_cons. cbn [replace]. by rewrite IH, append_cons.
Qed.

Lemma replace_field (w : string) :
  all_chars field_char w = true →
  replace "&" " " w = w ∧ replace "=" " " w = w.
Proof.
  induction w as [|c w IH]; [done|]. cbn [all_chars replace].
  rewrite andb_true_iff. intros [Hc Hw]. destruct (IH Hw) as [-> ->].
  unfold field_char in Hc. rewrite !andb_true_iff, !negb_true_iff in Hc.
  destruct Hc as [[_ Hamp] Heq].
  apply bool_decide_eq_false in Hamp, Heq. by rewrite !decide_False.
Qed.

Lemma digits_are_field_chars (t : string) :
  read_digits t = (t, EmptyString) → all_chars field_char t = true.
Proof.
  induction t as [|c t IH]; [done|]. cbn [read_digits all_chars].
  destruct (isdigit c) eqn:Hc; [|discriminate].
  destruct (read_digits t) as [d r]. intros Heq. inversion Heq. subst.
  rewrite IH by reflexivity. rewrite andb_true_r.
  unfold field_char. rewrite !andb_true_iff, !negb_true_iff. repeat split.
  - destruct (isspace c) eqn:Hs; [|done].
    apply isspace_not_digit in Hs. congruence.
  - apply bool_decide_eq_false. intros ->. discriminate.
  - apply bool_decide_eq_false. intros ->. discriminate.
Qed.

(** The target of the wire format, made plain, is its six tokens. *)
Lemma query_tokens (p verb k2 stock k3 amount : string) :
  field p → field verb → field k2 → field stock → field k3 → field amount →
  word (query p verb k2 stock k3 amount)
  ∧ tokens (replace "=" " " (replace "&" " " (query p verb k2 stock k3 amount)))
    = [p; verb; k2; stock; k3; amount].
Proof.
  intros Hp Hverb Hk2 Hstock Hk3 Hamount. unfold query. split.
  - split; [destruct p; [by destruct Hp|discriminate]|].
    rewrite !all_chars_append.
    rewrite (proj2 (field_word _ Hp)), (proj2 (field_word _ Hverb)),
      (proj2 (field_word _ Hk2)), (proj2 (field_word _ Hstock)),
      (proj2 (field_word _ Hk3)), (proj2 (field_word _ Hamount)).
    reflexivity.
  - rewrite !replace_append.
    rewrite !(proj1 (replace_field _ (proj2 Hp))), !(proj2 (replace_field _ (proj2 Hp))),
      !(proj1 (replace_field _ (proj2 Hverb))), !(proj2 (replace_field _ (proj2 Hverb))),
      !(proj1 (replace_field _ (proj2 Hk2))), !(proj2 (replace_field _ (proj2 Hk2))),
      !(proj1 (replace_field _ (proj2 Hstock))), !(proj2 (replace_field _ (proj2 Hstock))),
      !(proj1 (replace_field _ (proj2 Hk3))), !(proj2 (replace_field _ (proj2 Hk3))),
      !(proj1 (replace_field _ (proj2 Hamount))), !(proj2 (replace_field _ (proj2 Hamount))).
    cbn [replace]. rewrite !decide_True by done. rewrite ?decide_False by done.
    change (String " " EmptyString +:+ ?s) with (String " " s).
    rewrite !append_cons, !append_nil_l.
    rewrite (tokens_word_then p), (tokens_word_then verb), (tokens_word_then k2),
      (tokens_word_then stock), (tokens_word_then k3), (tokens_one_word amount);
      auto using field_word.
Qed.

(** A request in the wire format is read as it was written: for a method
    that is a token, names and values without white space, [&] and [=],
    an amount [n] that an [unsigned int] holds, written in decimal, and a
    target that [url_decode] leaves as it is, the handler reads the verb,
    the stock and [n], whatever the names of the three fields and whatever
    follows the target on the line. *)
Theorem wire_format_round_trip
    (a0 : Z) (method p verb k2 stock k3 rest : string) (n : Z) :
  word method →
  field p → field verb → field k2 → field stock → field k3 →
  0 <= n <= Int32.max_unsigned →
  url_decode (query p verb k2 stock k3 (decimal n)) = query p verb k2 stock k3 (decimal n) →
  read_request a0
    (method +:+ " " +:+ query p verb k2 stock k3 (decimal n) +:+ " " +:+ rest)
  = (verb, stock, n).
Proof.
  intros Hmethod Hp Hverb Hk2 Hstock Hk3 Hn Hdecode.
  destruct (decimal_denotes n (proj1 Hn)) as [Hnum Hvalue].
  assert (field (decimal n)) as Hamount.
  { destruct Hnum as [Hne Hdigits]. split; [exact Hne|].
    by apply digits_are_field_chars. }
  destruct (query_tokens p verb k2 stock k3 (decimal n) Hp Hverb Hk2 Hstock Hk3 Hamount)
    as [Hword Htokens].
  set (line := method +:+ " " +:+ query p verb k2 stock k3 (decimal n) +:+ " " +:+ rest).
  assert (tokens line !! 1%nat = Some (query p verb k2 stock k3 (decimal n))) as Htarget.
  { unfold line.
    change (tokens (method +:+ String " " (query p verb k2 stock k3 (decimal n)
                                           +:+ String " " rest)) !! 1%nat
            = Some (query p verb k2 stock k3 (decimal n))).
    rewrite (tokens_word_then method) by done.
    by rewrite (tokens_word_then (query p verb k2 stock k3 (decimal n))). }
  destruct (read_request_tokens a0 line) as (st & Hok & Hst & Hreq).
  rewrite Htarget in Hst, Hreq. cbn [default from_option id] in Hst, Hreq.
  rewrite Hdecode, Htokens in Hst, Hreq. rewrite Hreq.
  cbn [lookup list_lookup default from_option id]. do 2 f_equal.
  rewrite <- Hvalue.
  apply extract_unsigned_numeral; [exact Hok| |exact Hnum|].
  - by rewrite Hst.
  - rewrite Hvalue. apply Hn.
Qed.

(** ** The request head *)

Lemma split_line_at (l r : string) :
  all_chars (λ c, negb (bool_decide (c = LF))) l = true →
  split_line (l +:+ String LF r) = (l, r, true).
Proof.
  induction l as [|c l IH]; intros Hl.
  - rewrite append_nil_l. cbn [split_line]. by rewrite decide_True.
  - cbn [all_chars] in Hl. apply andb_true_iff in Hl as [Hc Hl].
    apply negb_true_iff, bool_decide_eq_false in Hc.
    rewrite append_cons. cbn [split_line]. rewrite decide_False by done.
    by rewrite (IH Hl).
Qed.

Lemma getline_at (l r old : string) :
  all_chars (λ c, negb (bool_decide (c = LF))) l = true →
  getline (istringstream (l +:+ String LF r)) old = (istringstream r, l).
Proof.
  intros Hl. unfold getline, istringstream, good. cbn [eofbit failbit buffer negb andb].
  destruct (l +:+ String LF r) as [|c b] eqn:Hb.
  - destruct l; discriminate.
  - rewrite <- Hb. by rewrite (split_line_at _ _ Hl).
Qed.

Lemma length_append (s t : string) :
  String.length (s +:+ t) = (String.length s + String.length t)%nat.
Proof.
  induction s as [|c s IH]; [reflexivity|].
  rewrite append_cons. cbn [String.length]. by rewrite IH.
Qed.

Lemma skip_headers_to_blank (fuel : nat) (hs : list string) (blank rest hdr : string) :
  Forall header_line hs →
  blank = EmptyString ∨ blank = String CR EmptyString →
  (String.length (lines_before hs (blank +:+ String LF rest)) < fuel)%nat →
  skip_headers fuel (istringstream (lines_before hs (blank +:+ String LF rest))) hdr
  = istringstream rest.
Proof.
  intros Hhs Hblank. revert fuel hdr.
  induction Hhs as [|h hs (Hh & Hne & Hcr) _ IH]; intros fuel hdr Hfuel;
    (destruct fuel as [|fuel]; [lia|]); cbn [lines_before foldr skip_headers] in *.
  - rewrite getline_at by (by destruct Hblank as [-> | ->]).
    cbn [istringstream failbit negb andb].
    by destruct Hblank as [-> | ->].
  - rewrite (getline_at _ _ _ Hh). cbn [istringstream failbit negb andb].
    rewrite !bool_decide_eq_false_2 by done. cbn [negb andb].
    apply IH. rewrite length_append in Hfuel. cbn [String.length] in Hfuel.
    fold (lines_before hs (blank +:+ String LF rest)) in Hfuel. lia.
Qed.

(** The handler takes the request head off the stream and nothing more:
    after a request line, any header lines and the line, empty or a lone
    carriage return, that ends the head, what follows is left unread. *)
Theorem head_is_consumed
    (a0 : Z) (line blank rest : string) (hs : list string) (m : gmap string Stock) :
  all_chars (λ c, negb (bool_decide (c = LF))) line = true →
  Forall header_line hs →
  blank = EmptyString ∨ blank = String CR EmptyString →
  (clientThread a0
     (istringstream (line +:+ String LF (lines_before hs (blank +:+ String LF rest)))) m).1.1
  = istringstream rest.
Proof.
  intros Hline Hhs Hblank. unfold clientThread.
  rewrite (getline_at _ _ _ Hline).
  destruct (read_request a0 line) as [[trans stock] a].
  destruct (process trans stock (Int32.of_unsigned a) m) as [m' data]. cbn [fst].
  apply skip_headers_to_blank; [exact Hhs|exact Hblank|].
  cbn [istringstream buffer]. lia.
Qed.

(** ** Buying and selling, one after the other *)

Lemma wrap_nothing (r : Stock) :
  Int32.in_range (balance r) → mkStock (name r) (Int32.wrap (balance r + 0)) = r.
Proof.
  intros Hr. rewrite Z.add_0_r, (wrap_in_range _ Hr). by destruct r.
Qed.

Lemma trade_present (o : op) (m : gmap string Stock) (s : string) (r : Stock) :
  trade o → m !! s = Some r → Int32.in_range (balance r) →
  (run_op o m).1 !! s = Some (mkStock (name r) (Int32.wrap (balance r + delta s o))).
Proof.
  intros Ho Hs Hr.
  destruct o as [stock n|stock n|stock n|stock|]; try done; cbn [run_op delta];
    by_presence stock m Hm;
    try (destruct (decide (stock = s)) as [->|Hne]; [congruence|]);
    try by rewrite Hs, (wrap_nothing _ Hr).
  - destruct (decide (stock = s)) as [->|Hne].
    + rewrite lookup_insert_eq. replace r0 with r by congruence.
      by replace (balance r + - n) with (balance r - n) by lia.
    + by rewrite lookup_insert_ne, Hs, (wrap_nothing _ Hr).
  - destruct (decide (stock = s)) as [->|Hne].
    + rewrite lookup_insert_eq. by replace r0 with r by congruence.
    + by rewrite lookup_insert_ne, Hs, (wrap_nothing _ Hr).
Qed.

Lemma trade_absent (o : op) (m : gmap string Stock) (s : string) :
  trade o → m !! s = None → (run_op o m).1 !! s = None.
Proof.
  intros Ho Hs.
  destruct o as [stock n|stock n|stock n|stock|]; try done; cbn [run_op];
    by_presence stock m Hm; try exact Hs;
    (rewrite lookup_insert_ne; [exact Hs|congruence]).
Qed.

Lemma run_ops_present (ops : list op) (m : gmap string Stock) (s : string) (r : Stock) :
  Forall trade ops → m !! s = Some r → Int32.in_range (balance r) →
  run_ops ops m !! s = Some (mkStock (name r) (Int32.wrap (balance r + net s ops))).
Proof.
  intros Hops. revert m r.
  induction Hops as [|o ops Ho _ IH]; intros m r Hs Hr; cbn [run_ops foldl net foldr].
  - by rewrite Hs, (wrap_nothing _ Hr).
  - fold (run_ops ops (run_op o m).1). fold (net s ops).
    rewrite (IH _ _ (trade_present o m s r Ho Hs Hr) (wrap_range _)).
    cbn [name balance]. rewrite wrap_add_l. do 3 f_equal. lia.
Qed.

Lemma run_ops_absent (ops : list op) (m : gmap string Stock) (s : string) :
  Forall trade ops → m !! s = None → run_ops ops m !! s = None.
Proof.
  intros Hops. revert m.
  induction Hops as [|o ops Ho _ IH]; intros m Hs; cbn [run_ops foldl]; [exact Hs|].
  apply IH. by apply trade_absent.
Qed.

Lemma net_permutation (s : string) (ops ops' : list op) :
  Permutation ops ops' → net s ops = net s ops'.
Proof.
  induction 1 as [|o ops ops' _ IH|o o' ops|ops ops' ops'' _ IH1 _ IH2];
    cbn [net foldr]; [reflexivity| | |congruence].
  - fold (net s ops) (net s ops'). by rewrite IH.
  - lia.
Qed.

(** Buys, sells and status requests add up: after any sequence of them,
    a record whose balance was an [int] holds that balance plus what was
    sold less what was bought of its symbol, reduced to an [int], under the
    same name; and a symbol that was not in the ledger is still not. *)
Theorem trades_add_up (ops : list op) (m : gmap string Stock) (s : string) :
  Forall trade ops →
  balances_in_range m →
  run_ops ops m !! s =
    (λ r, mkStock (name r) (Int32.wrap (balance r + net s ops))) <$> m !! s.
Proof.
  intros Hops Hm. destruct (m !! s) as [r|] eqn:Hs.
  - exact (run_ops_present ops m s r Hops Hs (Hm _ _ Hs)).
  - exact (run_ops_absent ops m s Hops Hs).
Qed.

(** The order of buys, sells and status requests does not matter to the
    ledger they leave. *)
Theorem trades_commute (ops ops' : list op) (m : gmap string Stock) :
  Forall trade ops →
  balances_in_range m →
  Permutation ops ops' →
  run_ops ops m = run_ops ops' m.
Proof.
  intros Hops Hm Hperm. apply map_eq. intros s.
  assert (Forall trade ops') as Hops' by (by rewrite <- Hperm).
  destruct (m !! s) as [r|] eqn:Hs.
  - rewrite (run_ops_present ops m s r Hops Hs (Hm _ _ Hs)).
    rewrite (run_ops_present ops' m s r Hops' Hs (Hm _ _ Hs)).
    by rewrite (net_permutation s _ _ Hperm).
  - by rewrite (run_ops_absent ops m s Hops Hs), (run_ops_absent ops' m s Hops' Hs).
Qed.

(** ** Threads: no deadlock, and an end to every schedule *)

Lemma total_insert (f : thread → Z) (l : list thread) (i : nat) (th th' : thread) :
  l !! i = Some th → total f (<[i := th']> l) = total f l - f th + f th'.
Proof.
  revert i. induction l as [|x l IH]; intros i Hi; [done|].
  destruct i as [|i]; cbn [total foldr] in *.
  - inversion Hi. subst. simpl. fold (total f l). lia.
  - simpl. fold (total f l) (total f (<[i := th']> l)). rewrite (IH i Hi). lia.
Qed.

Lemma thread_step_fits tid th m h th' m' h' :
  thread_step tid th m h = Some (th', m', h') →
  place_fits (task th) (place th) = true →
  place_fits (task th') (place th') = true.
Proof.
  destruct th as [o p r]. unfold thread_step, acquire. simpl.
  intros Hstep _.
  destruct o as [stock n|stock n|stock n|stock|];
    destruct p; simpl in Hstep; try discriminate;
    repeat match type of Hstep with
      | context [found ?k ?x] => destruct (found k x)
      | context [subscript ?k ?x] => destruct (subscript k x)
      | context [h !! ?k] => destruct (h !! k)
      end;
    simpl in Hstep; try discriminate; by inversion Hstep.
Qed.

Lemma thread_step_rank tid th m h th' m' h' :
  thread_step tid th m h = Some (th', m', h') →
  rank (place th') < rank (place th).
Proof.
  destruct th as [o p r]. unfold thread_step, acquire. simpl.
  intros Hstep.
  destruct o as [stock n|stock n|stock n|stock|];
    destruct p; simpl in Hstep; try discriminate;
    repeat match type of Hstep with
      | context [found ?k ?x] => destruct (found k x)
      | context [subscript ?k ?x] => destruct (subscript k x)
      | context [h !! ?k] => destruct (h !! k)
      end;
    simpl in Hstep; try discriminate; by inversion Hstep.
Qed.

Lemma reset_step_unlocks tid th m h th' m' h' :
  thread_step tid th m h = Some (th', m', h') → task th = Reset → h' = ∅.
Proof.
  destruct th as [o p r]. simpl. intros Hstep ->.
  destruct p; simpl in Hstep; try discriminate. by inversion Hstep.
Qed.



Lemma step_keeps_order (tid : nat) (c c' : config) :
  places_fit c → owners_inside c → step tid c = Some c' →
  places_fit c' ∧ owners_inside c'.
Proof.
  intros Hfit Hown. unfold step.
  destruct (pool c !! tid) as [th|] eqn:Hth; [|discriminate].
  destruct (thread_step tid th (ledger c) (held c)) as [[[th' m'] h']|] eqn:Hstep;
    [|discriminate].
  intros Heq. inversion Heq. subst c'. clear Heq.
  assert (tid < List.length (pool c))%nat as Hlen by (by eapply lookup_lt_Some).
  assert (∀ t x, pool c !! t = Some x → t ≠ tid → <[tid := th']> (pool c) !! t = Some x)
    as Hother by (intros; by rewrite list_lookup_insert_ne).
  assert (<[tid := th']> (pool c) !! tid = Some th') as Hself
    by (by apply list_lookup_insert_eq).
  split.
  - intros t x. cbn [pool]. destruct (decide (t = tid)) as [->|Hne].
    + rewrite Hself. intros [= <-]. by eapply thread_step_fits, Hfit.
    + rewrite list_lookup_insert_ne by done. apply Hfit.
  - intros s t. cbn [pool held]. intros Hs.
    destruct (decide (task th = Reset)) as [Hreset|Hreset].
    { rewrite (reset_step_unlocks _ _ _ _ _ _ _ Hstep Hreset) in Hs.
      by rewrite lookup_empty in Hs. }
    destruct (thread_step_locks _ _ _ _ _ _ _ Hstep Hreset) as [_ Hlocks].
    destruct Hlocks as [[-> Hsame]|[[-> [Hout _]]|[(k & Hk & -> & Hout & Hin)|(k & -> & Hin & _)]]].
    + destruct (Hown _ _ Hs) as (x & Hx & Hg).
      destruct (decide (t = tid)) as [->|Hne]; [|by eauto].
      exists th'. split; [done|]. rewrite Hsame. congruence.
    + destruct (Hown _ _ Hs) as (x & Hx & Hg).
      destruct (decide (t = tid)) as [->|Hne]; [congruence|by eauto].
    + destruct (decide (k = s)) as [->|Hks].
      * rewrite lookup_insert_eq in Hs. inversion Hs. subst t. by eauto.
      * rewrite lookup_insert_ne in Hs by done.
        destruct (Hown _ _ Hs) as (x & Hx & Hg).
        destruct (decide (t = tid)) as [->|Hne]; [congruence|by eauto].
    + assert (held c !! s = Some t ∧ (t = tid → s ≠ k)) as [Hs' Hsk].
      { unfold release in Hs. case_decide as Hmine.
        - destruct (decide (k = s)) as [->|Hks];
            [by rewrite lookup_delete_eq in Hs|].
          rewrite lookup_delete_ne in Hs by done. by split.
        - split; [done|]. intros -> ->. done. }
      destruct (Hown _ _ Hs') as (x & Hx & Hg).
      destruct (decide (t = tid)) as [->|Hne]; [|by eauto].
      exfalso. apply (Hsk eq_refl). congruence.
Qed.

Lemma spawn_in_order (tasks : list op) (m : gmap string Stock) :
  places_fit (spawn tasks m) ∧ owners_inside (spawn tasks m).
Proof.
  split.
  - intros tid th. unfold spawn. cbn [pool]. rewrite list_lookup_fmap.
    destruct (tasks !! tid) as [o|]; [|discriminate]. simpl.
    intros [= <-]. by destruct o.
  - intros s t. unfold spawn. cbn [held]. by rewrite lookup_empty.
Qed.



Lemma step_steps_left (tid : nat) (c c' : config) :
  step tid c = Some c' → steps_left c' < steps_left c.
Proof.
  unfold step.
  destruct (pool c !! tid) as [th|] eqn:Hth; [|discriminate].
  destruct (thread_step tid th (ledger c) (held c)) as [[[th' m'] h']|] eqn:Hstep;
    [|discriminate].
  intros Heq. inversion Heq. subst c'. unfold steps_left. cbn [pool].
  rewrite (total_insert _ _ _ _ _ Hth).
  pose proof (thread_step_rank _ _ _ _ _ _ _ Hstep). lia.
Qed.

Lemma run_steps_left (schedule : list nat) (c c' : config) :
  run schedule c = Some c' →
  Z.of_nat (List.length schedule) + steps_left c' <= steps_left c.
Proof.
  revert c. induction schedule as [|tid rest IH]; intros c Hrun; cbn [run] in Hrun.
  - inversion Hrun. simpl. lia.
  - destruct (step tid c) as [c1|] eqn:Hstep; [|discriminate].
    specialize (IH _ Hrun). apply step_steps_left in Hstep.
    cbn [List.length]. lia.
Qed.

Lemma steps_left_nonneg (c : config) : 0 <= steps_left c.
Proof.
  unfold steps_left. induction (pool c) as [|th l IH]; cbn [total foldr]; [done|].
  fold (total (λ th, rank (place th)) l). by destruct (place th); simpl; lia.
Qed.

Lemma spawn_steps_left (tasks : list op) (m : gmap string Stock) :
  steps_left (spawn tasks m) = 6 * Z.of_nat (List.length tasks).
Proof.
  unfold steps_left, spawn. cbn [pool].
  induction tasks as [|o tasks IH]; cbn [map total foldr List.length]; [done|].
  fold (total (λ th, rank (place th)) (map (λ o, mkThread o Start EmptyString) tasks)).
  rewrite IH. cbn [place rank]. lia.
Qed.

Lemma step_steps_left_of (t tid : nat) (c c' : config) :
  step t c = Some c' →
  (if decide (t = tid) then 1 else 0) + steps_left_of tid c' <= steps_left_of tid c.
Proof.
  unfold step.
  destruct (pool c !! t) as [th|] eqn:Hth; [|discriminate].
  destruct (thread_step t th (ledger c) (held c)) as [[[th' m'] h']|] eqn:Hstep;
    [|discriminate].
  intros Heq. inversion Heq. subst c'. unfold steps_left_of. cbn [pool].
  assert (t < List.length (pool c))%nat as Hlen by (by eapply lookup_lt_Some).
  destruct (decide (t = tid)) as [<-|Hne].
  - rewrite list_lookup_insert_eq by done. rewrite Hth.
    pose proof (thread_step_rank _ _ _ _ _ _ _ Hstep). lia.
  - rewrite list_lookup_insert_ne by done. lia.
Qed.

Lemma run_steps_left_of (schedule : list nat) (tid : nat) (c c' : config) :
  run schedule c = Some c' →
  steps_of tid schedule + steps_left_of tid c' <= steps_left_of tid c.
Proof.
  revert c. induction schedule as [|t rest IH]; intros c Hrun;
    cbn [run steps_of] in *.
  - inversion Hrun. lia.
  - destruct (step t c) as [c1|] eqn:Hstep; [|discriminate].
    specialize (IH _ Hrun). pose proof (step_steps_left_of _ tid _ _ Hstep). lia.
Qed.

Lemma steps_left_of_bounds (tid : nat) (c : config) : 0 <= steps_left_of tid c <= 6.
Proof.
  unfold steps_left_of. destruct (pool c !! tid) as [th|]; [|lia].
  destruct (place th); cbn [rank]; lia.
Qed.

(** Every schedule ends: in a schedule that a pool of threads can run, every
    thread takes at most six steps, whatever the other threads do; so the
    schedule is at most six times as long as the pool. *)
Theorem schedules_are_bounded
    (tasks : list op) (m : gmap string Stock) (schedule : list nat) (c : config)
    (tid : nat) :
  run schedule (spawn tasks m) = Some c →
  steps_of tid schedule <= 6
  ∧ Z.of_nat (List.length schedule) <= 6 * Z.of_nat (List.length tasks).
Proof.
  intros Hrun. split.
  - pose proof (run_steps_left_of _ tid _ _ Hrun).
    pose proof (steps_left_of_bounds tid c).
    pose proof (steps_left_of_bounds tid (spawn tasks m)). lia.
  - apply run_steps_left in Hrun.
    pose proof (steps_left_nonneg c). rewrite spawn_steps_left in Hrun. lia.
Qed.

(** ** Threads that buy and sell *)

Lemma ledger_is_present m0 T (m : gmap string Stock) (s : string) :
  ledger_is m0 T m → is_Some (m !! s) ↔ is_Some (m0 !! s).
Proof. intros Hm. rewrite (Hm s). apply fmap_is_Some. Qed.

Lemma ledger_is_found m0 T (m : gmap string Stock) (s : string) :
  ledger_is m0 T m → found s m = true ↔ is_Some (m0 !! s).
Proof.
  intros Hm. unfold found. rewrite bool_decide_eq_true.
  by apply ledger_is_present with T.
Qed.

Lemma ledger_is_same m0 (T T' : string → Z) (m : gmap string Stock) :
  ledger_is m0 T m → (∀ s, is_Some (m0 !! s) → T' s = T s) → ledger_is m0 T' m.
Proof.
  intros Hm HT s. rewrite (Hm s). destruct (m0 !! s) as [r|] eqn:Hs; [|done].
  simpl. by rewrite HT.
Qed.

Lemma ledger_is_subscript m0 T (m : gmap string Stock) (s : string) :
  ledger_is m0 T m → is_Some (m0 !! s) → (subscript s m).1 = m.
Proof.
  intros Hm Hs. apply (ledger_is_present _ _ _ _ Hm) in Hs as [r Hr].
  by rewrite (subscript_present _ _ _ Hr).
Qed.

Lemma ledger_is_assign m0 T (m : gmap string Stock) (stock : string) f (d : Z) :
  (∀ r, f r = mkStock (name r) (Int32.wrap (balance r + d))) →
  ledger_is m0 T m → is_Some (m0 !! stock) →
  ledger_is m0 (λ s, T s + if decide (stock = s) then d else 0) (assign stock f m).
Proof.
  intros Hf Hm [r0 Hr0] s.
  pose proof (Hm stock) as Hstock. rewrite Hr0 in Hstock. simpl in Hstock.
  rewrite (assign_present _ _ _ _ Hstock), Hf. cbn [name balance].
  destruct (decide (stock = s)) as [<-|Hne].
  - rewrite lookup_insert_eq, Hr0. simpl. by rewrite wrap_add_l, Z.add_assoc.
  - rewrite lookup_insert_ne by done. rewrite (Hm s).
    destruct (m0 !! s); [|done]. simpl. by rewrite Z.add_0_r.
Qed.

Lemma ledger_is_not_found m0 T (m : gmap string Stock) (s : string) :
  ledger_is m0 T m → found s m = false → m0 !! s = None.
Proof.
  intros Hm Hfound. apply eq_None_not_Some. intros Hin.
  apply (ledger_is_found _ _ _ _ Hm) in Hin. congruence.
Qed.

(** The ledger is as it was when what the thread has applied is. *)
Ltac same_ledger Hm :=
  apply (ledger_is_same _ _ _ _ Hm); intros ? ?;
  unfold applied, settled; cbn [place task goto finish delta]; lia.

(** The ledger is as it was when the thread has found no record. *)
Ltac ledger_without Hm Hout :=
  apply (ledger_is_same _ _ _ _ Hm); intros ? [? ?];
  unfold applied, settled; cbn [place task goto finish delta];
  rewrite decide_False by congruence; lia.

(** One step of a thread that buys, sells or asks for the status. *)
Lemma trading_step m0 T tid th m h th' m' h' :
  thread_step tid th m h = Some (th', m', h') →
  trading m0 th → ledger_is m0 T m →
  task th' = task th
  ∧ trading m0 th'
  ∧ ledger_is m0 (λ s, T s - applied s th + applied s th') m'.
Proof.
  destruct th as [o p r]. unfold thread_step, acquire, trading.
  cbn [task place ret].
  intros Hstep Hth Hm.
  destruct o as [stock n|stock n|stock n|stock|]; try done;
    destruct p; try done;
    try rewrite (ledger_is_subscript _ _ _ _ Hm Hth) in Hstep;
    repeat match type of Hstep with
      | context [found stock m] => destruct (found stock m) eqn:Hfound; cbn [negb] in Hstep
      | context [h !! stock] => destruct (h !! stock); [discriminate|]
      | context [subscript stock m] => destruct (subscript stock m) as [m1 r1] eqn:Hsub
      end;
    inversion Hstep; subst; clear Hstep;
    cbn [goto finish task place ret];
    (split; [reflexivity|]).
  (* buyS *)
  - split; [by apply (ledger_is_found _ _ _ _ Hm)|same_ledger Hm].
  - pose proof (ledger_is_not_found _ _ _ _ Hm Hfound) as Hout. split.
    + cbn [run_op]. by rewrite (buyS_absent _ _ _ Hout).
    + ledger_without Hm Hout.
  - split; [exact Hth|same_ledger Hm].
  - split; [exact Hth|same_ledger Hm].
  - split; [exact Hth|].
    eapply ledger_is_same;
      [apply (ledger_is_assign m0 T m stock _ (- n)); [|exact Hm|exact Hth]|].
    + intros r0. reflexivity.
    + intros s _. unfold applied, settled. cbn [place task goto delta]. lia.
  - split; [|same_ledger Hm].
    destruct Hth as [r0 Hr0]. cbn [run_op]. by rewrite (buyS_present _ _ _ _ Hr0).
  (* sellS *)
  - split; [by apply (ledger_is_found _ _ _ _ Hm)|same_ledger Hm].
  - pose proof (ledger_is_not_found _ _ _ _ Hm Hfound) as Hout. split.
    + cbn [run_op]. by rewrite (sellS_absent _ _ _ Hout).
    + ledger_without Hm Hout.
  - split; [exact Hth|same_ledger Hm].
  - split; [exact Hth|same_ledger Hm].
  - split; [exact Hth|].
    eapply ledger_is_same;
      [apply (ledger_is_assign m0 T m stock _ n); [|exact Hm|exact Hth]|].
    + intros r0. reflexivity.
    + intros s _. unfold applied, settled. cbn [place task goto delta]. lia.
  - split; [|same_ledger Hm].
    destruct Hth as [r0 Hr0]. cbn [run_op]. by rewrite (sellS_present _ _ _ _ Hr0).
  (* statusS *)
  - split; [by apply (ledger_is_found _ _ _ _ Hm)|same_ledger Hm].
  - split; [done|same_ledger Hm].
  - pose proof (ledger_is_subscript _ _ _ _ Hm Hth) as Hsame.
    rewrite Hsub in Hsame. cbn [fst] in Hsame. subst m'.
    split; [done|same_ledger Hm].
Qed.

Lemma step_keeps_trading m0 (tasks : list op) (tid : nat) (c c' : config) :
  trading_pool m0 tasks c → step tid c = Some c' → trading_pool m0 tasks c'.
Proof.
  intros (Htasks & Hpool & Hledger). unfold step.
  destruct (pool c !! tid) as [th|] eqn:Hth; [|discriminate].
  destruct (thread_step tid th (ledger c) (held c)) as [[[th' m'] h']|] eqn:Hstep;
    [|discriminate].
  intros Heq. inversion Heq. subst c'. clear Heq.
  destruct (trading_step _ _ _ _ _ _ _ _ _ Hstep (Hpool _ _ Hth) Hledger)
    as (Htask & Hth' & Hledger').
  assert (tid < List.length (pool c))%nat as Hlen by (by eapply lookup_lt_Some).
  split; [|split]; cbn [pool ledger].
  - rewrite list_fmap_insert, Htask. rewrite list_insert_id; [done|].
    by rewrite list_lookup_fmap, Hth.
  - intros t x. destruct (decide (t = tid)) as [->|Hne].
    + rewrite list_lookup_insert_eq by done. by intros [= <-].
    + rewrite list_lookup_insert_ne by done. apply Hpool.
  - intros s. rewrite (Hledger' s).
    by rewrite (total_insert _ _ _ _ _ Hth).
Qed.

Lemma spawn_trading (tasks : list op) (m : gmap string Stock) :
  Forall trade tasks → balances_in_range m → trading_pool m tasks (spawn tasks m).
Proof.
  intros Htasks Hm. unfold spawn. split; [|split]; cbn [pool ledger].
  - rewrite <- list_fmap_compose. by apply list_fmap_id.
  - intros tid th. rewrite list_lookup_fmap.
    destruct (tasks !! tid) as [o|] eqn:Ho; [|discriminate]. simpl.
    intros [= <-]. unfold trading. cbn [task place].
    pose proof (proj1 (Forall_lookup _ _) Htasks _ _ Ho). by destruct o.
  - intros s.
    assert (total (applied s) (map (λ o, mkThread o Start EmptyString) tasks) = 0) as ->.
    { clear Htasks. induction tasks as [|o tasks IH]; [done|].
      cbn [map total foldr].
      fold (total (applied s) (map (λ o, mkThread o Start EmptyString) tasks)).
      by rewrite IH. }
    destruct (m !! s) as [r|] eqn:Hs; [|done]. simpl.
    by rewrite (wrap_nothing _ (Hm _ _ Hs)).
Qed.

Lemma finished_total (s : string) (l : list thread) :
  (∀ tid th, l !! tid = Some th → place th = Finished) →
  total (applied s) l = net s (task <$> l).
Proof.
  induction l as [|th l IH]; intros Hl; [done|].
  cbn [total foldr fmap list_fmap net]. fold (total (applied s) l).
  change (foldr (λ o acc, delta s o + acc) 0 (task <$> l)) with (net s (task <$> l)).
  rewrite IH by (intros tid x Hx; exact (Hl (S tid) x Hx)).
  unfold applied, settled. by rewrite (Hl 0%nat th eq_refl).
Qed.

(** *** Access by access *)

Lemma update_inside (th : thread) (stock : string) (f : Z → Z) :
  update th = Some (stock, f) →
  guarding th = Some stock ∧ place th = AtBalance ∧ task th ≠ Reset.
Proof.
  destruct th as [o p r]. unfold update, guarding. cbn [task place].
  destruct o; destruct p; try discriminate; intros Heq; by inversion Heq.
Qed.

Lemma update_trading m0 (th : thread) (stock : string) (f : Z → Z) :
  update th = Some (stock, f) → trading m0 th → is_Some (m0 !! stock).
Proof.
  destruct th as [o p r]. unfold update, trading. cbn [task place].
  destruct o; destruct p; try discriminate; intros Heq; by inversion Heq.
Qed.

(** A step of a thread that is not inside the Guard of a record leaves the
    record as it is. *)
Lemma thread_step_keeps_unguarded tid th m h th' m' h' (k : string) (r : Stock) :
  thread_step tid th m h = Some (th', m', h') →
  task th ≠ Reset → guarding th ≠ Some k →
  m !! k = Some r → m' !! k = Some r.
Proof.
  destruct th as [o p t]. unfold thread_step, acquire. simpl.
  intros Hstep Hreset Hg Hk.
  destruct o as [stock n|stock n|stock n|stock|]; [| | | |done];
    destruct p; simpl in Hstep; cbv [guarding task place] in Hg; try discriminate;
    repeat match type of Hstep with
      | context [found ?a ?x] => destruct (found a x)
      | context [h !! ?a] => destruct (h !! a)
      end;
    simpl in Hstep; try discriminate;
    try (inversion Hstep; subst; first
      [ exact Hk
      | by apply subscript_keeps
      | apply assign_keeps_others; [congruence|exact Hk] ]).
  pose proof (subscript_keeps stock k m r Hk) as Hsub.
  destruct (subscript stock m) as [m1 r1]. inversion Hstep. by subst.
Qed.

(** The write of a value that is the balance of the record as it stands is
    the step of the thread. *)
Lemma write_is_step (tid : nat) (c : config) th (stock : string) (f : Z → Z) (r : Stock) :
  pool c !! tid = Some th → update th = Some (stock, f) →
  ledger c !! stock = Some r →
  step tid c = Some (mkConfig (<[tid := goto th AtUnlock]> (pool c))
                              (alter (set_balance (f (balance r))) stock (ledger c))
                              (held c)).
Proof.
  intros Hth Hup Hr. unfold step. rewrite Hth.
  rewrite (alter_alt_Some _ _ _ _ Hr).
  destruct th as [o p t]. unfold update in Hup. cbn [task place] in Hup.
  destruct o as [s n|s n|s n|s|]; destruct p; try discriminate;
    inversion Hup; subst; cbn [thread_step task place];
    by rewrite (assign_present _ _ _ _ Hr).
Qed.

(** The values that the other threads hold stay the balances of their
    records over a step: they are inside the Guards of their records, and
    so the thread that steps is not. *)
Lemma step_keeps_loads (tid : nat) (c c' : config) (loads : gmap nat Z) :
  reset_free c → guards_held c → loads_current c loads →
  step tid c = Some c' → loads_current c' (delete tid loads).
Proof.
  intros Hfree Hheld Hloads. unfold step.
  destruct (pool c !! tid) as [th|] eqn:Hth; [|discriminate].
  destruct (thread_step tid th (ledger c) (held c)) as [[[th' m'] h']|] eqn:Hstep;
    [|discriminate].
  intros Heq. inversion Heq. subst c'. clear Heq.
  intros t v Hv. apply lookup_delete_Some in Hv as [Hne Hv].
  destruct (Hloads _ _ Hv) as (x & stock & f & r & Hx & Hup & Hr & Hbal).
  exists x, stock, f, r. cbn [pool ledger].
  split; [by rewrite list_lookup_insert_ne|]. split; [done|]. split; [|done].
  destruct (update_inside _ _ _ Hup) as (Hg & _ & _).
  apply (thread_step_keeps_unguarded _ _ _ _ _ _ _ _ _ Hstep (Hfree _ _ Hth)); [|exact Hr].
  intros Hg'. pose proof (Hheld _ _ _ Hth Hg') as H1.
  pose proof (Hheld _ _ _ Hx Hg) as H2. congruence.
Qed.

Lemma trading_reset_free m0 (tasks : list op) (c : config) :
  trading_pool m0 tasks c → reset_free c.
Proof.
  intros (_ & Hpool & _) tid th Hth Hreset.
  pose proof (Hpool _ _ Hth) as Hok. unfold trading in Hok. by rewrite Hreset in Hok.
Qed.

Lemma access_keeps_floor m0 (tasks : list op) (tid : nat) c loads c' loads' :
  trading_floor m0 tasks c loads →
  access tid c loads = Some (c', loads') →
  trading_floor m0 tasks c' loads'.
Proof.
  intros (Htrade & Hheld & Hloads & Hfit & Hown).
  pose proof (trading_reset_free _ _ _ Htrade) as Hfree.
  assert (∀ c1, step tid c = Some c1 → trading_floor m0 tasks c1 (delete tid loads))
    as Hstepped.
  { intros c1 Hstep. split; [by eapply step_keeps_trading|].
    split; [by eapply step_keeps_guards|].
    split; [by eapply step_keeps_loads|by eapply step_keeps_order]. }
  unfold access.
  destruct (pool c !! tid) as [th|] eqn:Hth; [|discriminate].
  destruct (update th) as [[stock f]|] eqn:Hup.
  - destruct (loads !! tid) as [v|] eqn:Hv.
    + (* the write *)
      destruct (Hloads _ _ Hv) as (x & stock' & f' & r & Hx & Hup' & Hr & Hbal).
      rewrite Hth in Hx. inversion Hx. subst x.
      rewrite Hup in Hup'. inversion Hup'. subst stock' f' v.
      intros Heq. inversion Heq. subst loads'.
      apply Hstepped. by apply write_is_step.
    + (* the read *)
      destruct Htrade as (Htasks & Hpool & Hledger).
      pose proof (update_trading _ _ _ _ Hup (Hpool _ _ Hth)) as Hin.
      apply (ledger_is_present _ _ _ _ Hledger) in Hin as [r Hr].
      rewrite (subscript_present _ _ _ Hr).
      intros Heq. inversion Heq. subst c' loads'.
      split; [done|]. split; [exact Hheld|]. split; [|done].
      intros t v. destruct (decide (t = tid)) as [->|Hne].
      * rewrite lookup_insert_eq. intros [= <-]. by exists th, stock, f, r.
      * rewrite lookup_insert_ne by done. apply Hloads.
  - destruct (step tid c) as [c1|] eqn:Hstep; [|discriminate].
    intros Heq. inversion Heq. subst c1 loads'.
    rewrite <- (delete_id loads tid); [by apply Hstepped|].
    destruct (loads !! tid) as [v|] eqn:Hv; [|done].
    destruct (Hloads _ _ Hv) as (x & stock & f & r & Hx & Hup' & _).
    congruence.
Qed.

Lemma spawn_floor (tasks : list op) (m : gmap string Stock) :
  Forall trade tasks → balances_in_range m → trading_floor m tasks (spawn tasks m) ∅.
Proof.
  intros Htasks Hm. destruct (spawn_in_order tasks m) as [Hfit Hown].
  split; [by apply spawn_trading|]. split; [apply spawn_guards_held|].
  split; [|done]. intros tid v. by rewrite lookup_empty.
Qed.

Lemma interleaves_floor m0 (tasks : list op) c loads c' loads' :
  trading_floor m0 tasks c loads → interleaves c loads c' loads' →
  trading_floor m0 tasks c' loads'.
Proof.
  intros Hc. induction 1 as [|tid c' loads' c'' loads'' _ IH Haccess]; [done|].
  by eapply access_keeps_floor.
Qed.

(** What a schedule of accesses runs to is reached. *)
Lemma accesses_interleaves (schedule : list nat) c0 loads0 c loads c' loads' :
  interleaves c0 loads0 c loads →
  accesses schedule c loads = Some (c', loads') →
  interleaves c0 loads0 c' loads'.
Proof.
  revert c loads. induction schedule as [|tid rest IH]; intros c loads Hc Hrun;
    cbn [accesses] in Hrun.
  - by inversion Hrun; subst.
  - destruct (access tid c loads) as [[c1 loads1]|] eqn:Haccess; [|discriminate].
    apply (IH c1 loads1); [|exact Hrun]. by eapply interleaves_access.
Qed.

(** A step is one access, or the read and the write of an update one after
    the other: what the threads reach step by step they reach access by
    access. *)
Lemma step_accesses (tid : nat) (c c' : config) :
  step tid c = Some c' →
  ∃ n, accesses (replicate n tid) c ∅ = Some (c', ∅).
Proof.
  intros Hstep. pose proof Hstep as Hstep'. unfold step in Hstep'.
  destruct (pool c !! tid) as [th|] eqn:Hth; [|discriminate].
  destruct (update th) as [[stock f]|] eqn:Hup.
  - exists 2%nat. cbn [replicate accesses]. unfold access at 1.
    rewrite Hth, Hup, lookup_empty.
    destruct (subscript stock (ledger c)) as [m1 r] eqn:Hsub.
    assert (m1 !! stock = Some r) as Hr.
    { unfold subscript in Hsub. destruct (ledger c !! stock) as [r0|] eqn:Hr0;
        inversion Hsub; subst; [done|apply lookup_insert_eq]. }
    unfold access. cbn [pool ledger held]. rewrite Hth, Hup, lookup_insert_eq.
    rewrite (alter_alt_Some _ _ _ _ Hr), delete_insert_eq, delete_empty.
    destruct th as [o p t]. unfold update in Hup. cbn [task place] in Hup.
    destruct o as [s n|s n|s n|s|]; destruct p; try discriminate;
      inversion Hup; subst; cbn [thread_step task place] in Hstep';
      unfold assign in Hstep'; rewrite Hsub in Hstep'; by inversion Hstep'.
  - exists 1%nat. cbn [replicate accesses]. unfold access.
    by rewrite Hth, Hup, Hstep.
Qed.

Lemma reaches_interleaves (c c' : config) :
  reaches c c' → interleaves c ∅ c' ∅.
Proof.
  induction 1 as [|tid c' c'' _ IH Hstep]; [constructor|].
  destruct (step_accesses _ _ _ Hstep) as [n Hn].
  by eapply accesses_interleaves.
Qed.

(** No update is lost.  A pool of threads that buy, sell and ask for the
    status, over a ledger whose balances are [int]s, run access by access in
    any order until all have finished, where the read and the write of
    [balance -= amount] and [balance += amount] are two accesses and other
    threads may run between them: the ledger is the one that the same
    operations leave when they run one after the other, no mutex is left
    locked, no thread holds a value it has not written, and every buy and
    sell has the result string that it has when it runs alone on the ledger
    of the start. *)
Theorem concurrent_trades_as_sequential
    (tasks : list op) (m : gmap string Stock) (c : config) (loads : gmap nat Z) :
  Forall trade tasks →
  balances_in_range m →
  interleaves (spawn tasks m) ∅ c loads →
  all_finished c →
  ledger c = run_ops tasks m
  ∧ held c = ∅
  ∧ loads = ∅
  ∧ task <$> pool c = tasks
  ∧ (∀ tid th stock n,
       pool c !! tid = Some th →
       task th = Buy stock n ∨ task th = Sell stock n →
       ret th = (run_op (task th) m).2).
Proof.
  intros Htasks Hm Hreach Hdone.
  destruct (interleaves_floor _ _ _ _ _ _ (spawn_floor _ _ Htasks Hm) Hreach)
    as ((Hpool & Hthreads & Hledger) & _ & Hloads & _ & Hown).
  split; [|split; [|split; [|split; [exact Hpool|]]]].
  - apply map_eq. intros s. rewrite (Hledger s).
    rewrite (finished_total s _ Hdone), Hpool.
    destruct (m !! s) as [r|] eqn:Hs.
    + by rewrite (run_ops_present tasks m s r Htasks Hs (Hm _ _ Hs)).
    + by rewrite (run_ops_absent tasks m s Htasks Hs).
  - apply map_empty. intros s.
    destruct (held c !! s) as [t|] eqn:Hs; [|done].
    destruct (Hown _ _ Hs) as (x & Hx & Hg).
    pose proof (Hdone _ _ Hx) as Hp. unfold guarding in Hg. rewrite Hp in Hg.
    by destruct (task x).
  - apply map_empty. intros t.
    destruct (loads !! t) as [v|] eqn:Hv; [|done].
    destruct (Hloads _ _ Hv) as (x & stock & f & r & Hx & Hup & _).
    destruct (update_inside _ _ _ Hup) as (_ & Hp & _).
    pose proof (Hdone _ _ Hx). congruence.
  - intros tid th stock n Hth Htask.
    pose proof (Hthreads _ _ Hth) as Hok. unfold trading in Hok.
    rewrite (Hdone _ _ Hth) in Hok. by destruct Htask as [Ht|Ht]; rewrite Ht in Hok |- *.
Qed.

(** ** Threads that create the same symbol *)

Lemma run_app (s1 s2 : list nat) (c : config) :
  run (s1 ++ s2) c = match run s1 c with Some c' => run s2 c' | None => None end.
Proof.
  revert c. induction s1 as [|tid s1 IH]; intros c; [reflexivity|].
  cbn [app run]. by destruct (step tid c).
Qed.

(** [createS] looks the symbol up before it takes the Guard, so two
    threads that create the same new symbol can both be past [find] before
    either has inserted: both then report that they created the stock, and
    the balance is the one of the thread that wrote last. *)
Theorem create_race (m : gmap string Stock) (s : string) (n1 n2 : Z) :
  m !! s = None →
  run ([0; 1] ++ replicate 5 0 ++ replicate 5 1)%nat (spawn [Create s n1; Create s n2] m)
  = Some (mkConfig
            [mkThread (Create s n1) Finished
               ("Stock " +:+ s +:+ " created with balance = " +:+ to_string n1);
             mkThread (Create s n2) Finished
               ("Stock " +:+ s +:+ " created with balance = " +:+ to_string n2)]
            (<[s := mkStock s n2]> m) ∅).
Proof.
  intros Hm. pose proof (found_absent _ _ Hm) as Hfound.
  set (done1 := mkThread (Create s n1) Finished
                  ("Stock " +:+ s +:+ " created with balance = " +:+ to_string n1)).
  set (done2 := mkThread (Create s n2) Finished
                  ("Stock " +:+ s +:+ " created with balance = " +:+ to_string n2)).
  set (start1 := mkThread (Create s n1) Start EmptyString).
  set (start2 := mkThread (Create s n2) Start EmptyString).
  set (found1 := mkThread (Create s n1) AtSubscript EmptyString).
  set (found2 := mkThread (Create s n2) AtSubscript EmptyString).
  change ([0; 1] ++ replicate 5 0 ++ replicate 5 1)%nat
    with (replicate 1 0 ++ replicate 1 1 ++ replicate 5 0 ++ replicate 5 1)%nat.
  change (spawn [Create s n1; Create s n2] m) with (mkConfig [start1; start2] m ∅).
  rewrite run_app.
  rewrite (run_thread_run 1 0 (mkConfig [start1; start2] m ∅) start1 found1 m ∅ eq_refl)
    by (subst start1; cbn [ledger held thread_run thread_step task place];
        by rewrite Hfound).
  cbn [pool insert list_insert]. rewrite run_app.
  rewrite (run_thread_run 1 1 (mkConfig [found1; start2] m ∅) start2 found2 m ∅ eq_refl)
    by (subst start2; cbn [ledger held thread_run thread_step task place];
        by rewrite Hfound).
  cbn [pool insert list_insert]. rewrite run_app.
  rewrite (run_thread_run 5 0 (mkConfig [found1; found2] m ∅) found1 done1
             (<[s := mkStock s n1]> m) ∅ eq_refl).
  - cbn [pool insert list_insert].
    rewrite (run_thread_run 5 1 (mkConfig [done1; found2] (<[s := mkStock s n1]> m) ∅)
               found2 done2 (<[s := mkStock s n2]> m) ∅ eq_refl); [reflexivity|].
    subst found2 done2.
    cbn [ledger held thread_run thread_step task place goto].
    rewrite (subscript_present _ s (mkStock s n1)) by apply lookup_insert_eq.
    cbn [fst]. rewrite acquire_free.
    cbn [thread_run thread_step task place goto finish].
    rewrite (assign_present _ s (set_name s) (mkStock s n1)) by apply lookup_insert_eq.
    rewrite (assign_present _ s (set_balance n2) (set_name s (mkStock s n1)))
      by apply lookup_insert_eq.
    by rewrite !insert_insert_eq, release_acquired.
  - subst found1 done1.
    cbn [ledger held thread_run thread_step task place goto].
    rewrite (subscript_absent _ _ Hm). cbn [fst]. rewrite acquire_free.
    cbn [thread_run thread_step task place goto finish].
    rewrite (assign_present _ s (set_name s) Stock_default) by apply lookup_insert_eq.
    rewrite (assign_present _ s (set_balance n1) (set_name s Stock_default))
      by apply lookup_insert_eq.
    by rewrite !insert_insert_eq, release_acquired.
Qed.

(** ** Amounts that are no numerals, or too large *)

(** [>>] into an [unsigned int] when a token is next: the number is read
    off that token and what follows it, which starts with white space if it
    starts at all. *)
Lemma extract_unsigned_token (st : istream) (old : Z) (t : string) :
  stream_ok st →
  head (tokens (buffer st)) = Some t →
  ∃ rest, at_word_end rest ∧ t ≠ EmptyString ∧
    (extract_unsigned st old).2 =
      (let '(negative, body) := read_sign (t +:+ rest) in
       let '(ds, _) := read_digits body in
       if decide (ds = EmptyString) then 0
       else if decide (Int32.max_unsigned < digits_value 0 ds) then Int32.max_unsigned
       else if negative then Int32.wrap_unsigned (- digits_value 0 ds)
       else digits_value 0 ds).
Proof.
  intros Hok Hhead. unfold extract_unsigned, sentry.
  destruct (good st) eqn:Hgood.
  - rewrite <- (tokens_skipws (buffer st)) in Hhead.
    destruct (skipws (buffer st)) as [|c r] eqn:Hskip; [discriminate|].
    pose proof (skipws_starts_word _ _ _ Hskip) as Hc.
    rewrite (tokens_word _ _ Hc) in Hhead. cbn [head] in Hhead.
    destruct (read_word (String c r)) as [w rest] eqn:Hw.
    cbn [fst] in Hhead. inversion Hhead. subst w.
    pose proof Hw as Hw'. apply read_word_split in Hw' as [Hsplit Hend].
    exists rest. split; [exact Hend|]. split.
    { cbn [read_word] in Hw. rewrite Hc in Hw.
      destruct (read_word r). by inversion Hw. }
    cbn [buffer]. rewrite <- Hsplit.
    destruct (read_sign (String c r)) as [negative body].
    destruct (read_digits body) as [ds rest'].
    repeat case_decide; reflexivity.
  - destruct Hok as [Hok|Hok]; [congruence|]. by rewrite Hok in Hhead.
Qed.

(** An amount that is no numeral is read as 0, and an amount above the
    greatest [unsigned int] as that greatest value, which [process]
    receives as -1: when the token at position 6 of the target made plain
    starts with neither a digit nor a sign, and when it is a decimal
    numeral of a value above [2^32 - 1]. *)
Theorem malformed_amount (a0 : Z) (line t : string) :
  let target := default (default EmptyString (head (tokens line))) (tokens line !! 1%nat) in
  let norm := replace "=" " " (replace "&" " " (url_decode target)) in
  tokens norm !! 5%nat = Some t →
  (match t with
   | String c _ => isdigit c = false ∧ c ≠ "-"%char ∧ c ≠ "+"%char
   | EmptyString => False
   end →
   (read_request a0 line).2 = 0)
  ∧ (numeral t → Int32.max_unsigned < digits_value 0 t →
     (read_request a0 line).2 = Int32.max_unsigned
     ∧ Int32.of_unsigned (read_request a0 line).2 = -1).
Proof.
  intros target norm Ht.
  destruct (read_request_tokens a0 line) as (st & Hok & Hst & Hreq).
  fold target norm in Hst, Hreq. rewrite Hreq. cbn [snd].
  assert (head (tokens (buffer st)) = Some t) as Hhead
    by (by rewrite Hst, head_lookup, lookup_drop).
  destruct (extract_unsigned_token st a0 t Hok Hhead) as (rest & Hend & Hne & ->).
  split.
  - destruct t as [|c t']; [done|]. intros (Hc & Hminus & Hplus).
    rewrite append_cons. unfold read_sign. rewrite !decide_False by done.
    cbn [read_digits]. by rewrite Hc.
  - intros [_ Hdigits] Hbig.
    destruct t as [|c t'] eqn:Het; [done|]. rewrite <- Het in *.
    assert (isdigit c = true) as Hd.
    { rewrite Het in Hdigits. cbn [read_digits] in Hdigits. by destruct (isdigit c). }
    destruct (digit_not_sign _ Hd) as [Hminus Hplus].
    assert (read_sign (t +:+ rest) = (false, t +:+ rest)) as ->.
    { rewrite Het, append_cons. unfold read_sign. by rewrite !decide_False. }
    rewrite (read_digits_numeral _ rest Hdigits).
    + rewrite decide_False by done. by rewrite decide_True.
    + destruct rest as [|c' r']; [done|]. by apply isspace_not_digit.
Qed.

End Exchange.

(** * The theorems at concrete inputs

    [Stock.h] is taken to start a balance at 0, and [url_decode] to leave a
    target that has no escape in it as it is. *)


(** C1, the claim as stated fails: bought from the least [int], the balance
    does not go down by 1; it comes out as the greatest [int]. *)
Lemma buy_wraps_at_int_min :
  let m := (createS 0 "A" (-2147483648) ∅).1 in
  m !! "A" = Some (mkStock "A" (-2147483648))
  ∧ buyS 0 "A" 1 m =
      ({[ "A" := mkStock "A" 2147483647 ]}, "Stock A's balance updated")
  ∧ (statusS 0 "A" (buyS 0 "A" 1 m).1).2 = "Balance for stock A = 2147483647".
Proof. vm_compute. repeat split. Qed.

(** C1 at a ledger with one record: bought below zero, and sold. *)
Lemma buy_sell_adjust_balance_witness :
  let m : gmap string Stock := {[ "A" := mkStock "A" 5 ]} in
  m !! "A" = Some (mkStock "A" 5)
  ∧ buyS 0 "A" 7 m = ({[ "A" := mkStock "A" (-2) ]}, "Stock A's balance updated")
  ∧ sellS 0 "A" 7 m = ({[ "A" := mkStock "A" 12 ]}, "Stock A's balance updated")
  ∧ (buyS 0 "A" 7 m).1 !! "A" = Some (mkStock "A" (-2))
  ∧ (sellS 0 "A" 7 m).1 !! "A" = Some (mkStock "A" 12).
Proof.
  intros m. split; [reflexivity|].
  destruct (buy_sell_adjust_balance 0 m "A" (mkStock "A" 5) 7 eq_refl)
    as (Hbuy & Hsell & Hbuy_exact & Hsell_exact).
  split; [exact Hbuy|]. split; [exact Hsell|].
  split; [apply Hbuy_exact|apply Hsell_exact]; vm_compute; split; discriminate.
Defined.

(** C2 at the empty ledger. *)
Lemma create_then_status_witness :
  (∅ : gmap string Stock) !! "ABC" = None
  ∧ createS 0 "ABC" 100 ∅ =
      ({[ "ABC" := mkStock "ABC" 100 ]}, "Stock ABC created with balance = 100")
  ∧ statusS 0 "ABC" (createS 0 "ABC" 100 ∅).1 =
      ({[ "ABC" := mkStock "ABC" 100 ]}, "Balance for stock ABC = 100").
Proof.
  split; [reflexivity|]. exact (create_then_status 0 ∅ "ABC" 100 eq_refl).
Defined.

(** C3 at a ledger with one symbol and not another, and at the empty
    ledger, where no symbol is. *)
Lemma error_results_keep_ledger_witness :
  let m : gmap string Stock := {[ "ABC" := mkStock "ABC" 70 ]} in
  is_Some (m !! "ABC")
  ∧ m !! "XYZ" = None
  ∧ (∅ : gmap string Stock) !! "ABC" = None
  ∧ createS 0 "ABC" 100 m = (m, "Stock ABC already exists")
  ∧ (buyS 0 "XYZ" 100 m = (m, "Stock not found")
     ∧ sellS 0 "XYZ" 100 m = (m, "Stock not found")
     ∧ statusS 0 "XYZ" m = (m, "Stock not found"))
  ∧ (buyS 0 "ABC" 100 ∅ = (∅, "Stock not found")
     ∧ sellS 0 "ABC" 100 ∅ = (∅, "Stock not found")
     ∧ statusS 0 "ABC" ∅ = (∅, "Stock not found")).
Proof.
  intros m.
  assert (is_Some (m !! "ABC")) as Hin by (by exists (mkStock "ABC" 70)).
  split; [exact Hin|]. split; [reflexivity|]. split; [reflexivity|].
  split; [exact (proj1 (error_results_keep_ledger 0 m "ABC" 100) Hin)|].
  split; [exact (proj2 (error_results_keep_ledger 0 m "XYZ" 100) eq_refl)|].
  exact (proj2 (error_results_keep_ledger 0 ∅ "ABC" 100) eq_refl).
Defined.

(** C6 at a verb in another case and at the empty verb. *)
Lemma unknown_verb_is_invalid_witness :
  let m : gmap string Stock := {[ "ABC" := mkStock "ABC" 70 ]} in
  ("Create" ∉ ["create"; "buy"; "sell"; "status"; "reset"])
  ∧ ("" ∉ ["create"; "buy"; "sell"; "status"; "reset"])
  ∧ process 0 "Create" "ABC" 100 m = (m, "Invalid request")
  ∧ process 0 "" "ABC" 100 m = (m, "Invalid request").
Proof.
  intros m.
  assert ("Create" ∉ ["create"; "buy"; "sell"; "status"; "reset"]) as Hcase.
  { rewrite !not_elem_of_cons. repeat split; [discriminate..|apply not_elem_of_nil]. }
  assert ("" ∉ ["create"; "buy"; "sell"; "status"; "reset"]) as Hempty.
  { rewrite !not_elem_of_cons. repeat split; [discriminate..|apply not_elem_of_nil]. }
  split; [exact Hcase|]. split; [exact Hempty|].
  split; [exact (unknown_verb_is_invalid 0 "Create" "ABC" 100 m Hcase)|].
  exact (unknown_verb_is_invalid 0 "" "ABC" 100 m Hempty).
Defined.

(** C9 at the ledger a create and a buy leave, with a sell to come. *)
Lemma ledger_invariant_witness :
  let m := (run_op 0 (Buy "ABC" 30) (run_op 0 (Create "ABC" 100) ∅).1).1 in
  reachable 0 m
  ∧ m !! "ABC" = Some (mkStock "ABC" 70)
  ∧ (∀ s r, m !! s = Some r → name r = s)
  ∧ dom (run_op 0 (Sell "ABC" 5) m).1 = dom m.
Proof.
  intros m.
  assert (reachable 0 m) as Hreach.
  { apply reachable_step, reachable_step, reachable_empty. }
  split; [exact Hreach|]. split; [reflexivity|].
  destruct (ledger_invariant 0 m (Sell "ABC" 5) Hreach) as (Hnames & _ & _ & Hkeys).
  split; [exact Hnames|]. apply (Hkeys "ABC" 5). right. by left.
Defined.

(** C8, the claim as stated fails.  The sixth token of the target made
    plain is 3000000000, and the amount that reaches [process] is
    -1294967296, as the ledger and the response show.  And a request line
    of one token has no second token, yet is served: its only token is
    taken as the target, and here resets the ledger. *)
Lemma amount_above_int_max_arrives_negative :
  let is0 := request "GET /t?trans=create&stock=ABC&a=3000000000 HTTP/1.1" in
  let line := (getline is0 EmptyString).2 in
  let is1 := request "/t?trans=reset" in
  let m : gmap string Stock := {[ "ABC" := mkStock "ABC" 100 ]} in
  tokens line = ["GET"; "/t?trans=create&stock=ABC&a=3000000000"; "HTTP/1.1"]
  ∧ tokens (replace "=" " " (replace "&" " " "/t?trans=create&stock=ABC&a=3000000000"))
    = ["/t?trans"; "create"; "stock"; "ABC"; "a"; "3000000000"]
  ∧ read_request (λ url, url) 0 line = ("create", "ABC", 3000000000)
  ∧ (clientThread 0 (λ url, url) 0 is0 ∅).2 = {[ "ABC" := mkStock "ABC" (-1294967296) ]}
  ∧ (clientThread 0 (λ url, url) 0 is0 ∅).1.2 =
      response "Stock ABC created with balance = -1294967296"
  ∧ tokens (getline is1 EmptyString).2 = ["/t?trans=reset"]
  ∧ (clientThread 0 (λ url, url) 0 is1 m).2 = ∅
  ∧ (clientThread 0 (λ url, url) 0 is1 m).1.2 = response "Stocks reset".
Proof. vm_compute. repeat split. Qed.

(** C8 at a request of the documented shape. *)
Lemma request_fields_by_position_witness :
  let is0 := request "GET /t?trans=create&stock=ABC&a=100 HTTP/1.1" in
  let line := (getline is0 EmptyString).2 in
  let norm := replace "=" " " (replace "&" " " "/t?trans=create&stock=ABC&a=100") in
  tokens line = ["GET"; "/t?trans=create&stock=ABC&a=100"; "HTTP/1.1"]
  ∧ tokens norm = ["/t?trans"; "create"; "stock"; "ABC"; "a"; "100"]
  ∧ numeral "100"
  ∧ digits_value 0 "100" = 100
  ∧ read_request (λ url, url) 7 line = ("create", "ABC", 100)
  ∧ (clientThread 0 (λ url, url) 7 is0 ∅).2 = {[ "ABC" := mkStock "ABC" 100 ]}
  ∧ (clientThread 0 (λ url, url) 7 is0 ∅).1.2 =
      response "Stock ABC created with balance = 100".
Proof.
  intros is0 line norm.
  assert (numeral "100") as Hnum by (split; [discriminate|reflexivity]).
  split; [reflexivity|]. split; [reflexivity|]. split; [exact Hnum|].
  split; [reflexivity|].
  assert (digits_value 0 "100" <= Int32.max_unsigned) as Hfit
    by (vm_compute; discriminate).
  destruct (request_fields_by_position 0 (λ url, url) 7 is0 ∅)
    as (a & Hread & Hout & Hledger & Hsixth & _).
  destruct (Hsixth "100" eq_refl Hnum Hfit) as (-> & _ & _).
  split; [exact Hread|]. split; [exact Hledger|exact Hout].
Defined.



(** Operations on one symbol and the record of another. *)
Lemma other_records_untouched_witness :
  let m : gmap string Stock := {[ "ABC" := mkStock "ABC" 70 ]} in
  "ABC" ≠ "XYZ"
  ∧ (createS 0 "XYZ" 5 m).1 !! "ABC" = Some (mkStock "ABC" 70)
  ∧ (buyS 0 "XYZ" 5 m).1 !! "ABC" = Some (mkStock "ABC" 70)
  ∧ (sellS 0 "XYZ" 5 m).1 !! "ABC" = Some (mkStock "ABC" 70).
Proof.
  intros m. assert ("ABC" ≠ "XYZ") as Hne by discriminate.
  split; [exact Hne|].
  exact (other_records_untouched 0 "XYZ" "ABC" 5 m Hne).
Defined.

(** The scenario of the specification, request after request: create, the
    same create again, buy, status, reset, status, and an unknown verb. *)
Theorem end_to_end_scenario :
  serve 0 (λ url, url) 0
    [ "GET /t?trans=create&stock=ABC&a=100 HTTP/1.1";
      "GET /t?trans=create&stock=ABC&a=100 HTTP/1.1";
      "GET /t?trans=buy&stock=ABC&a=30 HTTP/1.1";
      "GET /t?trans=status&stock=ABC HTTP/1.1";
      "GET /t?trans=reset HTTP/1.1";
      "GET /t?trans=status&stock=ABC HTTP/1.1";
      "GET /t?trans=frobnicate HTTP/1.1" ] ∅
  = ( [ response "Stock ABC created with balance = 100";
        response "Stock ABC already exists";
        response "Stock ABC's balance updated";
        response "Balance for stock ABC = 70";
        response "Stocks reset";
        response "Stock not found";
        response "Invalid request" ], ∅ ).
Proof. vm_compute. reflexivity. Qed.

(** The round trip at a balance that wraps in between. *)
Lemma buy_sell_round_trip_witness :
  let m : gmap string Stock := {[ "ABC" := mkStock "ABC" (-2147483648) ]} in
  m !! "ABC" = Some (mkStock "ABC" (-2147483648))
  ∧ Int32.in_range (-2147483648)
  ∧ (buyS 0 "ABC" 30 m).1 = {[ "ABC" := mkStock "ABC" 2147483618 ]}
  ∧ (sellS 0 "ABC" 30 (buyS 0 "ABC" 30 m).1).1 = m
  ∧ (buyS 0 "ABC" 30 (sellS 0 "ABC" 30 m).1).1 = m.
Proof.
  intros m.
  assert (Int32.in_range (-2147483648)) as Hr by (vm_compute; split; discriminate).
  split; [reflexivity|]. split; [exact Hr|]. split; [reflexivity|].
  exact (buy_sell_round_trip 0 m "ABC" (mkStock "ABC" (-2147483648)) 30 eq_refl Hr).
Defined.

(** The invariant at the ledger two connections leave. *)
Lemma served_ledger_invariant_witness :
  let m1 := (clientThread 0 (λ url, url) 0
               (request "GET /t?trans=create&stock=ABC&a=4294967295 HTTP/1.1") ∅).2 in
  let m2 := (clientThread 0 (λ url, url) 0
               (request "GET /t?trans=sell&stock=ABC&a=2147483647 HTTP/1.1") m1).2 in
  served 0 (λ url, url) m2
  ∧ m2 = {[ "ABC" := mkStock "ABC" 2147483646 ]}
  ∧ names_match_keys m2
  ∧ balances_in_range m2.
Proof.
  intros m1 m2.
  assert (served 0 (λ url, url) m2) as Hserved.
  { apply served_one, served_one, served_nothing. }
  split; [exact Hserved|]. split; [reflexivity|].
  exact (served_ledger_invariant 0 (λ url, url) m2 Hserved).
Defined.

(** A request for the root, and a connection that sends nothing. *)
Lemma no_verb_is_invalid_witness :
  let m : gmap string Stock := {[ "ABC" := mkStock "ABC" 70 ]} in
  tokens (replace "=" " " (replace "&" " " "/")) !! 1%nat = None
  ∧ tokens (replace "=" " " (replace "&" " " "")) !! 1%nat = None
  ∧ (clientThread 0 (λ url, url) 0 (request "GET / HTTP/1.1") m).1.2
    = response "Invalid request"
  ∧ (clientThread 0 (λ url, url) 0 (request "GET / HTTP/1.1") m).2 = m
  ∧ (clientThread 0 (λ url, url) 0 (istringstream "") m).1.2
    = response "Invalid request"
  ∧ (clientThread 0 (λ url, url) 0 (istringstream "") m).2 = m.
Proof.
  intros m. split; [reflexivity|]. split; [reflexivity|].
  destruct (no_verb_is_invalid 0 (λ url, url) 0 (request "GET / HTTP/1.1") m eq_refl)
    as [Hout Hledger].
  destruct (no_verb_is_invalid 0 (λ url, url) 0 (istringstream "") m eq_refl)
    as [Hout' Hledger'].
  split; [exact Hout|]. split; [exact Hledger|]. split; [exact Hout'|exact Hledger'].
Defined.

(** The wire format with field names of its own, for the greatest amount. *)
Lemma wire_format_round_trip_witness :
  word "GET"
  ∧ field "/stocks?t" ∧ field "sell" ∧ field "s" ∧ field "MSFT" ∧ field "amount"
  ∧ 0 <= 4294967295 <= Int32.max_unsigned
  ∧ query "/stocks?t" "sell" "s" "MSFT" "amount" (decimal 4294967295)
    = "/stocks?t=sell&s=MSFT&amount=4294967295"
  ∧ read_request (λ url, url) 0 "GET /stocks?t=sell&s=MSFT&amount=4294967295 HTTP/1.1"
    = ("sell", "MSFT", 4294967295).
Proof.
  assert (word "GET") as Hmethod by (split; [discriminate|reflexivity]).
  assert (field "/stocks?t") as Hp by (split; [discriminate|reflexivity]).
  assert (field "sell") as Hverb by (split; [discriminate|reflexivity]).
  assert (field "s") as Hk2 by (split; [discriminate|reflexivity]).
  assert (field "MSFT") as Hstock by (split; [discriminate|reflexivity]).
  assert (field "amount") as Hk3 by (split; [discriminate|reflexivity]).
  assert (0 <= 4294967295 <= Int32.max_unsigned) as Hn
    by (vm_compute; split; discriminate).
  repeat (split; [assumption|]). split; [reflexivity|].
  exact (wire_format_round_trip (λ url, url) 0 "GET" "/stocks?t" "sell" "s" "MSFT"
           "amount" "HTTP/1.1" 4294967295 Hmethod Hp Hverb Hk2 Hstock Hk3 Hn eq_refl).
Defined.

(** A request with two header lines and a body: the body is left. *)
Lemma head_is_consumed_witness :
  let hs := [ "Host: localhost" +:+ String CR EmptyString;
              "Accept: */*" +:+ String CR EmptyString ] in
  let line := "GET /t?trans=reset HTTP/1.1" +:+ String CR EmptyString in
  all_chars (λ c, negb (bool_decide (c = LF))) line = true
  ∧ Forall header_line hs
  ∧ (clientThread 0 (λ url, url) 0
       (istringstream
          (line +:+ String LF (lines_before hs (String CR EmptyString +:+ String LF "body"))))
       ∅).1.1
    = istringstream "body".
Proof.
  intros hs line.
  assert (Forall header_line hs) as Hhs.
  { repeat constructor; discriminate. }
  split; [reflexivity|]. split; [exact Hhs|].
  exact (head_is_consumed 0 (λ url, url) 0 line (String CR EmptyString) "body" hs ∅
           eq_refl Hhs (or_intror eq_refl)).
Defined.

(** Four trades on two symbols, in two orders. *)
Lemma trades_add_up_witness :
  let m : gmap string Stock :=
    {[ "ABC" := mkStock "ABC" 100; "XYZ" := mkStock "XYZ" 5 ]} in
  let ops := [Buy "ABC" 30; Sell "XYZ" 7; Status "ABC"; Buy "ABC" 80; Sell "QQQ" 1] in
  Forall trade ops
  ∧ balances_in_range m
  ∧ net "ABC" ops = -110
  ∧ run_ops 0 ops m !! "ABC" = Some (mkStock "ABC" (-10))
  ∧ run_ops 0 ops m !! "QQQ" = None.
Proof.
  intros m ops.
  assert (Forall trade ops) as Hops by (by repeat constructor).
  assert (balances_in_range m) as Hm.
  { intros s r Hs. unfold m in Hs.
    apply lookup_insert_Some in Hs as [[_ <-]|[_ Hs]];
      [vm_compute; split; discriminate|].
    apply lookup_singleton_Some in Hs as [_ <-]. vm_compute; split; discriminate. }
  split; [exact Hops|]. split; [exact Hm|]. split; [reflexivity|].
  split.
  - exact (trades_add_up 0 ops m "ABC" Hops Hm).
  - exact (trades_add_up 0 ops m "QQQ" Hops Hm).
Defined.

Lemma trades_commute_witness :
  let m : gmap string Stock := {[ "ABC" := mkStock "ABC" 100 ]} in
  let ops := [Buy "ABC" 30; Sell "ABC" 7; Status "ABC"] in
  let ops' := [Status "ABC"; Sell "ABC" 7; Buy "ABC" 30] in
  Forall trade ops
  ∧ balances_in_range m
  ∧ Permutation ops ops'
  ∧ run_ops 0 ops m = {[ "ABC" := mkStock "ABC" 77 ]}
  ∧ run_ops 0 ops' m = {[ "ABC" := mkStock "ABC" 77 ]}.
Proof.
  intros m ops ops'.
  assert (Forall trade ops) as Hops by (by repeat constructor).
  assert (balances_in_range m) as Hm.
  { intros s r Hs. apply lookup_singleton_Some in Hs as [_ <-].
    vm_compute; split; discriminate. }
  assert (Permutation ops ops') as Hperm.
  { change ops' with (reverse ops). symmetry. apply reverse_Permutation. }
  split; [exact Hops|]. split; [exact Hm|]. split; [exact Hperm|].
  split; [reflexivity|].
  rewrite <- (trades_commute 0 ops ops' m Hops Hm Hperm). reflexivity.
Defined.


(** A schedule that runs a create and a status to their ends: six steps
    of the one and one step of the other. *)
Lemma schedules_are_bounded_witness :
  let tasks := [Create "ABC" 100; Status "ABC"] in
  let schedule := [1; 0; 0; 0; 0; 0; 0]%nat in
  run 0 schedule (spawn tasks ∅)
  = Some (mkConfig [mkThread (Create "ABC" 100) Finished
                      "Stock ABC created with balance = 100";
                    mkThread (Status "ABC") Finished "Stock not found"]
                   {[ "ABC" := mkStock "ABC" 100 ]} ∅)
  ∧ steps_of 0 schedule = 6
  ∧ steps_of 1 schedule = 1
  ∧ (steps_of 0 schedule <= 6
     ∧ Z.of_nat (List.length schedule) <= 6 * Z.of_nat (List.length tasks))
  ∧ (steps_of 1 schedule <= 6
     ∧ Z.of_nat (List.length schedule) <= 6 * Z.of_nat (List.length tasks)).
Proof.
  intros tasks schedule.
  assert (run 0 schedule (spawn tasks ∅)
          = Some (mkConfig [mkThread (Create "ABC" 100) Finished
                              "Stock ABC created with balance = 100";
                            mkThread (Status "ABC") Finished "Stock not found"]
                           {[ "ABC" := mkStock "ABC" 100 ]} ∅)) as Hrun
    by (vm_compute; reflexivity).
  split; [exact Hrun|]. split; [reflexivity|]. split; [reflexivity|].
  split.
  - exact (schedules_are_bounded 0 tasks ∅ schedule _ 0%nat Hrun).
  - exact (schedules_are_bounded 0 tasks ∅ schedule _ 1%nat Hrun).
Defined.

(** Three threads, two of them on one record.  The first reads the
    balance, the others run, and then it writes; the second, which comes to
    the lock in between, has to wait there. *)
Lemma concurrent_trades_as_sequential_witness :
  let m : gmap string Stock := {[ "ABC" := mkStock "ABC" 100 ]} in
  let tasks := [Buy "ABC" 30; Sell "ABC" 5; Buy "XYZ" 1] in
  let schedule := [0; 0; 0; 0; 1; 1; 2; 0; 0; 1; 1; 1; 1]%nat in
  let c := mkConfig [mkThread (Buy "ABC" 30) Finished "Stock ABC's balance updated";
                     mkThread (Sell "ABC" 5) Finished "Stock ABC's balance updated";
                     mkThread (Buy "XYZ" 1) Finished "Stock not found"]
                    {[ "ABC" := mkStock "ABC" 75 ]} ∅ in
  Forall trade tasks
  ∧ balances_in_range m
  ∧ accesses 0 [0; 0; 0; 0]%nat (spawn tasks m) ∅
    = Some (mkConfig [mkThread (Buy "ABC" 30) AtBalance "";
                      mkThread (Sell "ABC" 5) Start "";
                      mkThread (Buy "XYZ" 1) Start ""]
                     m {[ "ABC" := 0%nat ]},
            {[ 0%nat := 100 ]})
  ∧ accesses 0 [0; 0; 0; 0; 1; 1; 1]%nat (spawn tasks m) ∅ = None
  ∧ accesses 0 schedule (spawn tasks m) ∅ = Some (c, ∅)
  ∧ all_finished c
  ∧ ledger c = run_ops 0 tasks m.
Proof.
  intros m tasks schedule c.
  assert (Forall trade tasks) as Htasks by (by repeat constructor).
  assert (balances_in_range m) as Hm.
  { intros s r Hs. apply lookup_singleton_Some in Hs as [_ <-].
    vm_compute; split; discriminate. }
  assert (accesses 0 schedule (spawn tasks m) ∅ = Some (c, ∅)) as Hrun
    by (vm_compute; reflexivity).
  assert (all_finished c) as Hdone.
  { intros tid th Hth. unfold c in Hth. cbn [pool] in Hth.
    destruct tid as [|[|[|tid]]]; simpl in Hth; by inversion Hth. }
  split; [exact Htasks|]. split; [exact Hm|].
  split; [vm_compute; reflexivity|]. split; [vm_compute; reflexivity|].
  split; [exact Hrun|]. split; [exact Hdone|].
  exact (proj1 (concurrent_trades_as_sequential 0 tasks m c ∅ Htasks Hm
                  (accesses_interleaves 0 schedule _ _ _ _ _ _
                     (interleaves_here 0 _ _) Hrun) Hdone)).
Defined.

(** Two creates of one symbol with different amounts: the second amount
    stays, and both threads report a creation. *)
Lemma create_race_witness :
  (∅ : gmap string Stock) !! "ABC" = None
  ∧ run 0 [0; 1; 0; 0; 0; 0; 0; 1; 1; 1; 1; 1]%nat
      (spawn [Create "ABC" 100; Create "ABC" 7] ∅)
    = Some (mkConfig
              [mkThread (Create "ABC" 100) Finished "Stock ABC created with balance = 100";
               mkThread (Create "ABC" 7) Finished "Stock ABC created with balance = 7"]
              {[ "ABC" := mkStock "ABC" 7 ]} ∅).
Proof.
  split; [reflexivity|]. exact (create_race 0 ∅ "ABC" 100 7 eq_refl).
Defined.

(** An amount of letters, and an amount of eleven digits. *)
Lemma malformed_amount_witness :
  let norm1 := replace "=" " " (replace "&" " " "/t?trans=create&stock=ABC&a=lots") in
  let norm2 := replace "=" " " (replace "&" " " "/t?trans=create&stock=ABC&a=99999999999") in
  tokens norm1 !! 5%nat = Some "lots"
  ∧ tokens norm2 !! 5%nat = Some "99999999999"
  ∧ numeral "99999999999"
  ∧ Int32.max_unsigned < digits_value 0 "99999999999"
  ∧ read_request (λ url, url) 7 "GET /t?trans=create&stock=ABC&a=lots HTTP/1.1"
    = ("create", "ABC", 0)
  ∧ (read_request (λ url, url) 7 "GET /t?trans=create&stock=ABC&a=99999999999 HTTP/1.1").2
    = 4294967295.
Proof.
  intros norm1 norm2.
  assert (numeral "99999999999") as Hnum by (split; [discriminate|reflexivity]).
  assert (Int32.max_unsigned < digits_value 0 "99999999999") as Hbig by reflexivity.
  split; [reflexivity|]. split; [reflexivity|]. split; [exact Hnum|].
  split; [exact Hbig|].
  destruct (malformed_amount (λ url, url) 7
              "GET /t?trans=create&stock=ABC&a=lots HTTP/1.1" "lots" eq_refl)
    as [Hletters _].
  destruct (malformed_amount (λ url, url) 7
              "GET /t?trans=create&stock=ABC&a=99999999999 HTTP/1.1" "99999999999" eq_refl)
    as [_ Hlarge].
  split.
  - assert ((read_request (λ url, url) 7
               "GET /t?trans=create&stock=ABC&a=lots HTTP/1.1").2 = 0) as Hzero.
    { apply Hletters. repeat split; discriminate. }
    reflexivity.
  - exact (proj1 (Hlarge Hnum Hbig)).
Defined.
